(** * Spillable buffers: a shallow embedding of [SpillableBuffer]

    The development follows the Cython class [SpillableBuffer] and the
    module-level function [create_view].  Python objects live in a heap
    indexed by references; every method is a computation in a
    state-and-exception monad over the [World], so that the state left
    behind by a raised exception can be observed. *)

From stdpp Require Import gmap strings list sorting.
From Stdlib Require Import ZArith Lia.

Local Open Scope Z_scope.

(** ** Values *)

Abbreviation bytes := (list Byte.byte).

(** A reference to a base [SpillableBuffer] object (Python object identity). *)
Abbreviation ref := nat.

(** The exceptions the code can raise.  [ReferenceError] stands for the use
    of a reference that denotes no object; Python code cannot produce such a
    reference, the model needs the case because references are numbers.
    [Foreign] is an exception raised by a function that the sources at hand
    do not contain, by the name of that function. *)
Inductive exn :=
| ValueError (msg : string)
| AssertionError
| KeyError (key : string)
| OverflowError
| ReferenceError
| Foreign (origin : string).

(** The error names of the design document, as predicates on what the code
    raises (every one of them is a [ValueError] in the source). *)
Definition msg_unspillable : string := "Cannot in-place move an unspillable buffer".
Definition msg_unknown_target : string := "Unknown target".
Definition msg_single_frame : string := "Deserializing a SpillableBuffer expect a single frame".
Definition msg_unpack_few : string := "not enough values to unpack (expected 1, got 0)".
Definition msg_unpack_many : string := "too many values to unpack (expected 1)".
Definition msg_from_spillable : string :=
  "Cannot create from a SpillableBuffer, use __getitem__ to create a view".
Definition msg_not_contiguous : string := "memoryview must be C-contiguous".
Definition msg_slice_step : string := "slice must be C-contiguous".
Definition msg_negative_size : string := "size cannot be negative".
Definition msg_slice_zero : string := "slice step cannot be zero".
Definition msg_negative_length : string := "length should not be negative".
Definition msg_negative_count : string := "negative count".

Definition Unspillable (e : exn) : Prop := e = ValueError msg_unspillable.


(** ** The data model *)

(** [_ptr_desc]: the dictionary with the key ["type"] and, for host-resident
    buffers, the key ["memoryview"]. *)
Record ptr_desc := PtrDesc {
  ptype : string;
  pmemoryview : option bytes;
}.

(** The fields of a base buffer, as [__init__] sets them.  [_expose_counter]
    is the use count of the shared pointer made by [create_expose_counter];
    the lock is not modelled: the embedding is sequential and the lock is
    reentrant. *)
Record base_state := BaseState {
  _expose_counter : nat;
  _exposed : bool;
  _last_accessed : nat;
  _ptr_desc : ptr_desc;
  _ptr : Z;
  _size : Z;
  _owner : option Z;
}.

(** [_view_desc] of a view: the base object and the offset into it. *)
Record view_desc := ViewDesc {
  vd_base : ref;
  vd_offset : Z;
}.

(** A buffer handle.  A base buffer ([_view_desc is None]) is a reference
    into the heap.  A view is made by [create_view] only, never mutated
    afterwards, and holds the reference to its base, its offset and its own
    size; its remaining fields are never read. *)
Inductive SpillableBuffer :=
| Base (self : ref)
| View (_view_desc : view_desc) (size : Z).

(** What [__init__] and [deserialize] accept as [data]. *)
Inductive data_source :=
| SrcSpillable (b : SpillableBuffer)
| SrcDeviceBuffer (ptr : Z) (size : nat)
| SrcCudaArray (ptr : Z) (size : nat)
| SrcHost (content : bytes) (c_contiguous : bool).

(** Modelled from the spec: the spill manager (section 6 of the design), whose
    code is not part of the sources at hand: the registered base buffers and
    the configured device-memory limit. *)
Record SpillManager := Manager {
  base_buffers : list ref;
  device_memory_limit : option Z;
}.

(** The state of the program: the heap of base buffers, device memory as a
    flat byte-addressed space, the monotonic clock, the manager, and the
    owner vectors (vectors of copies of expose counters) that callers of
    [ptr_raw] keep alive. *)
Record World := MkWorld {
  heap : list base_state;
  device : gmap Z Byte.byte;
  clock : nat;
  manager : SpillManager;
  owners : list (list ref);
}.

Definition set_heap (h : list base_state) (w : World) : World :=
  MkWorld h (device w) (clock w) (manager w) (owners w).
Definition set_device (d : gmap Z Byte.byte) (w : World) : World :=
  MkWorld (heap w) d (clock w) (manager w) (owners w).
Definition set_clock (c : nat) (w : World) : World :=
  MkWorld (heap w) (device w) c (manager w) (owners w).
Definition set_manager (m : SpillManager) (w : World) : World :=
  MkWorld (heap w) (device w) (clock w) m (owners w).
Definition set_owners (o : list (list ref)) (w : World) : World :=
  MkWorld (heap w) (device w) (clock w) (manager w) o.

Definition initial_world (d : gmap Z Byte.byte) (limit : option Z) : World :=
  MkWorld [] d 0%nat (Manager [] limit) [].

(** ** The monad: state, and exceptions that keep the state *)

Definition M (A : Type) : Type := World → (exn + A) * World.

Definition ret {A} (a : A) : M A := λ w, (inr a, w).
Definition raise {A} (e : exn) : M A := λ w, (inl e, w).
Definition bind {A B} (m : M A) (f : A → M B) : M B :=
  λ w, match m w with
       | (inr a, w') => f a w'
       | (inl e, w') => (inl e, w')
       end.
Definition get : M World := λ w, (inr w, w).
Definition modify (f : World → World) : M unit := λ w, (inr tt, f w).

(** Lift a pure query; [None] is a reference that denotes no object. *)
Definition query {A} (q : World → option A) : M A :=
  λ w, match q w with
       | Some a => (inr a, w)
       | None => (inl ReferenceError, w)
       end.

#[global] Instance M_ret : MRet M := @ret.
#[global] Instance M_bind : MBind M := λ A B f m, bind m f.

Definition result {A} (m : M A) (w : World) : exn + A := fst (m w).
Definition after {A} (m : M A) (w : World) : World := snd (m w).

(** ** Device memory *)

(** Reading [n] bytes at address [p]; an address that holds nothing reads
    as zero. *)
Fixpoint dev_read (d : gmap Z Byte.byte) (p : Z) (n : nat) : bytes :=
  match n with
  | O => []
  | S n' => default Byte.x00 (d !! p) :: dev_read d (p + 1) n'
  end.

Fixpoint dev_write (d : gmap Z Byte.byte) (p : Z) (bs : bytes) : gmap Z Byte.byte :=
  match bs with
  | [] => d
  | b :: bs' => <[p := b]> (dev_write d (p + 1) bs')
  end.

(** [memoryview(bytearray(n))]: a zeroed host buffer. *)
Definition bytearray (n : Z) : M bytes :=
  if n <? 0 then raise (ValueError msg_negative_count)
  else ret (replicate (Z.to_nat n) Byte.x00).

(** [rmm._lib.device_buffer.copy_ptr_to_host(ptr, host_mem)]: fills
    [host_mem] with the bytes found at [ptr]. *)
Definition copy_ptr_to_host (p : Z) (host_mem : bytes) : M bytes :=
  w ← get; ret (dev_read (device w) p (length host_mem)).

(** Conversion of a Python integer to a C [size_t]. *)
Definition as_size_t (z : Z) : M Z :=
  if (z <? 0) || (2 ^ 64 <=? z) then raise OverflowError else ret z.

(** [time.monotonic()] *)
Definition monotonic : M nat :=
  w ← get; modify (set_clock (S (clock w))) ;; ret (clock w).

(** ** Heap access *)

Definition load (r : ref) : M base_state := query (λ w, heap w !! r).
Definition store (r : ref) (st : base_state) : M unit :=
  modify (λ w, set_heap (<[r := st]> (heap w)) w).

(** ** Properties of [SpillableBuffer] *)

Definition base_ref (b : SpillableBuffer) : ref :=
  match b with
  | Base r => r
  | View vd _ => vd_base vd
  end.

Definition is_spilled_state (st : base_state) : bool :=
  negb (String.eqb (ptype (_ptr_desc st)) "gpu").

Definition spillable_state (st : base_state) : bool :=
  negb (_exposed st) && Nat.eqb (_expose_counter st) 1.

Definition is_spilled (b : SpillableBuffer) (w : World) : option bool :=
  match b with
  | View vd _ => is_spilled_state <$> heap w !! vd_base vd
  | Base r => is_spilled_state <$> heap w !! r
  end.

Definition exposed (b : SpillableBuffer) (w : World) : option bool :=
  match b with
  | View vd _ => _exposed <$> heap w !! vd_base vd
  | Base r => _exposed <$> heap w !! r
  end.

Definition expose_counter (b : SpillableBuffer) (w : World) : option nat :=
  match b with
  | View vd _ => _expose_counter <$> heap w !! vd_base vd
  | Base r => _expose_counter <$> heap w !! r
  end.

Definition spillable (b : SpillableBuffer) (w : World) : option bool :=
  match b with
  | View vd _ => spillable_state <$> heap w !! vd_base vd
  | Base r => spillable_state <$> heap w !! r
  end.

Definition size (b : SpillableBuffer) (w : World) : option Z :=
  match b with
  | View _ sz => Some sz
  | Base r => _size <$> heap w !! r
  end.

Definition last_accessed (b : SpillableBuffer) (w : World) : option nat :=
  match b with
  | View vd _ => _last_accessed <$> heap w !! vd_base vd
  | Base r => _last_accessed <$> heap w !! r
  end.

(** ** Slices *)

Record slice := Slice {
  slice_start : option Z;
  slice_stop : option Z;
  slice_step : option Z;
}.

(** [slice.indices(length)] *)
Definition slice_indices (key : slice) (len : Z) : M (Z * Z * Z) :=
  if len <? 0 then raise (ValueError msg_negative_length) else
  let step := default 1 (slice_step key) in
  if step =? 0 then raise (ValueError msg_slice_zero) else
  let lower := if step <? 0 then -1 else 0 in
  let upper := if step <? 0 then len - 1 else len in
  let start :=
    match slice_start key with
    | None => if step <? 0 then upper else lower
    | Some s => if s <? 0 then Z.max (s + len) lower else Z.min s upper
    end in
  let stop :=
    match slice_stop key with
    | None => if step <? 0 then lower else upper
    | Some s => if s <? 0 then Z.max (s + len) lower else Z.min s upper
    end in
  ret (start, stop, step).

(** [m[a:b]] on a host buffer: a negative bound counts from the end, and
    both bounds are clamped to the length. *)
Definition clamp (i len : Z) : Z :=
  if i <? 0 then Z.max (i + len) 0 else Z.min i len.

Definition host_slice (m : bytes) (a b : Z) : bytes :=
  let len := Z.of_nat (length m) in
  let a' := clamp a len in
  let b' := clamp b len in
  take (Z.to_nat (b' - a')) (drop (Z.to_nat a') m).

Definition create_view (buffer : SpillableBuffer) (size offset : Z) : M SpillableBuffer :=
  if size <? 0 then raise (ValueError msg_negative_size) else
  let '(base, base_offset) :=
    match buffer with
    | Base r => (r, 0)
    | View vd _ => (vd_base vd, vd_offset vd)
    end in
  ret (View (ViewDesc base (base_offset + offset)) size).

Definition __getitem__ (self : SpillableBuffer) (key : slice) : M SpillableBuffer :=
  len ← query (size self);
  '(start, stop, step) ← slice_indices key len;
  if negb (step =? 1) then raise (ValueError msg_slice_step)
  else create_view self (stop - start) start.

(** ** Field updates *)

Definition with_residency (st : base_state) (pd : ptr_desc) (p sz : Z)
    (own : option Z) : base_state :=
  BaseState (_expose_counter st) (_exposed st) (_last_accessed st) pd p sz own.

Definition with_exposed (st : base_state) (e : bool) : base_state :=
  BaseState (_expose_counter st) e (_last_accessed st) (_ptr_desc st)
    (_ptr st) (_size st) (_owner st).

Definition with_last_accessed (st : base_state) (t : nat) : base_state :=
  BaseState (_expose_counter st) (_exposed st) t (_ptr_desc st)
    (_ptr st) (_size st) (_owner st).

Definition with_expose_counter (st : base_state) (c : nat) : base_state :=
  BaseState c (_exposed st) (_last_accessed st) (_ptr_desc st)
    (_ptr st) (_size st) (_owner st).

(** ** Serialization headers *)

Record header := Header {
  type_serialized : string;
  frame_count : Z;
}.

(** ** The methods *)

(** Modelled from the spec: the collaborators whose code is not part of the
    sources at hand.  The raw allocator (section 2 of the design): given the
    device memory and a size it picks the address of the new allocation;
    allocation is taken to succeed.  The eviction policy of the manager
    (section 6), which the design leaves open: a rank on the buffers, by
    which the registered buffers are taken for spilling.  The helper
    [get_ptr_and_size], applied to [numpy.array(data).__array_interface__]
    for a host source [data], which the design does not describe: it
    raises, or it gives the address and the size of the array made from the
    data; the parameter gives the bytes of that size at that address. *)
Class External := {
  rmm_alloc : gmap Z Byte.byte → nat → Z;
  eviction_rank : World → ref → nat;
  get_ptr_and_size : bytes → bool → exn + bytes;
}.

Section Operations.

Context `{Ext : External}.

(** [rmm.DeviceBuffer(ptr=.., size=..)] on host memory and
    [rmm.DeviceBuffer.to_device]: a new device allocation holding a copy of
    the host bytes; the result is its address. *)
Definition to_device (host : bytes) : M Z :=
  w ← get;
  let p := rmm_alloc (device w) (length host) in
  modify (set_device (dev_write (device w) p host));;
  mret p.

(** [move_inplace]; the assignments of a branch are made at once, nothing
    can raise between them. *)
Definition move_inplace (self : SpillableBuffer) (target : string) : M unit :=
  match self with
  | View _ _ => raise AssertionError
  | Base r =>
    st ← load r;
    let ptr_type := ptype (_ptr_desc st) in
    if String.eqb ptr_type target then mret tt else
    if negb (spillable_state st) then raise (ValueError msg_unspillable) else
    if String.eqb ptr_type "gpu" && String.eqb target "cpu" then
      host_mem ← bytearray (_size st);
      host_mem ← copy_ptr_to_host (_ptr st) host_mem;
      store r (with_residency st (PtrDesc target (Some host_mem)) 0 (_size st) None)
    else if String.eqb ptr_type "cpu" && String.eqb target "gpu" then
      match pmemoryview (_ptr_desc st) with
      | None => raise (KeyError "memoryview")
      | Some mv =>
        dev_mem ← to_device mv;
        store r (with_residency st (PtrDesc target None) dev_mem
                   (Z.of_nat (length mv)) (Some dev_mem))
      end
    else raise (ValueError msg_unknown_target)
  end.

(** [is_overlapping], on a base buffer (the manager holds base buffers
    only). *)
Definition is_overlapping (self : ref) (ptr size : Z) (w : World) : option bool :=
  st ← heap w !! self;
  Some (negb (is_spilled_state st)
        && (ptr + size >? _ptr st) && (_ptr st + _size st >? ptr)).

(** Modelled from the spec: [manager.find_overlapping_base]
    ([lookup_address_range] in the calls of the source), the first
    registered base buffer that overlaps the range. *)
Definition lookup_address_range (ptr size : Z) (w : World) : option ref :=
  List.find (λ r, default false (is_overlapping r ptr size w))
    (base_buffers (manager w)).

(** Modelled from the spec: [manager.register] ([add] in the source),
    idempotent. *)
Definition manager_add (r : ref) : M unit :=
  modify (λ w,
    let m := manager w in
    if bool_decide (r ∈ base_buffers m) then w
    else set_manager (Manager (base_buffers m ++ [r]) (device_memory_limit m)) w).

(** Modelled from the spec: the device memory in use by registered
    buffers. *)
Definition device_usage (w : World) : Z :=
  foldr (λ r acc,
           match heap w !! r with
           | Some st => if is_spilled_state st then acc else _size st + acc
           | None => acc
           end) 0 (base_buffers (manager w)).

(** Modelled from the spec: [manager.enforce_budget]
    ([spill_to_device_limit] in the source): while the usage is not under
    the limit, spill the next registered, device-resident, spillable
    candidate; stop when under the limit or out of candidates. *)
Fixpoint spill_loop (limit : Z) (candidates : list ref) : M unit :=
  match candidates with
  | [] => mret tt
  | r :: rest =>
    w ← get;
    if device_usage w <? limit then mret tt else
    match heap w !! r with
    | Some st =>
      if bool_decide (r ∈ base_buffers (manager w))
         && negb (is_spilled_state st) && spillable_state st
      then move_inplace (Base r) "cpu" else mret tt
    | None => mret tt
    end;;
    spill_loop limit rest
  end.

(** Modelled from the spec: the candidates of the enforcement, every
    registered buffer, by increasing rank. *)
Definition rank_le (w : World) (r1 r2 : ref) : Prop :=
  (eviction_rank w r1 ≤ eviction_rank w r2)%nat.

#[global] Instance rank_le_dec w : RelDecision (rank_le w) :=
  λ r1 r2, decide (eviction_rank w r1 ≤ eviction_rank w r2)%nat.

Definition spill_candidates (w : World) : list ref :=
  merge_sort (rank_le w) (base_buffers (manager w)).

(** Modelled from the spec: without a configured limit the enforcement of
    the budget does nothing. *)
Definition spill_to_device_limit : M unit :=
  w ← get;
  match device_memory_limit (manager w) with
  | None => mret tt
  | Some limit => spill_loop limit (spill_candidates w)
  end.

(** The [ptr] property of a base buffer. *)
Definition ptr_base (r : ref) : M Z :=
  spill_to_device_limit;;
  move_inplace (Base r) "gpu";;
  st ← load r;
  store r (with_exposed st true);;
  now ← monotonic;
  st ← load r;
  store r (with_last_accessed st now);;
  mret (_ptr st).

Definition ptr (self : SpillableBuffer) : M Z :=
  match self with
  | View vd _ => p ← ptr_base (vd_base vd); mret (p + vd_offset vd)
  | Base r => ptr_base r
  end.

(** The preamble of [ptr_raw] and [memoryview]: the base buffer and the
    offset, a C [size_t]. *)
Definition get_base (self : SpillableBuffer) : M (ref * Z) :=
  match self with
  | Base r => mret (r, 0)
  | View vd _ => offset ← as_size_t (vd_offset vd); mret (vd_base vd, offset)
  end.

(** [dereference(owners).push_back(base._expose_counter)]: the vector gets a
    copy of the shared pointer, whose use count goes up by one. *)
Definition push_back (owners_vec : nat) (r : ref) : M unit :=
  w ← get;
  match owners w !! owners_vec with
  | None => raise ReferenceError
  | Some tokens =>
    st ← load r;
    store r (with_expose_counter st (S (_expose_counter st)));;
    modify (λ w, set_owners (<[owners_vec := tokens ++ [r]]> (owners w)) w)
  end.

(** [ptr_raw]; the owner vector is named by its index among the live
    vectors, and the address is cast to [uintptr_t]. *)
Definition ptr_raw (self : SpillableBuffer) (owners_vec : nat) : M Z :=
  '(base, offset) ← get_base self;
  move_inplace (Base base) "gpu";;
  now ← monotonic;
  st ← load base;
  store base (with_last_accessed st now);;
  push_back owners_vec base;;
  mret ((_ptr st + offset) `mod` 2 ^ 64).

Definition memoryview (self : SpillableBuffer) : M bytes :=
  '(base, offset) ← get_base self;
  st ← load base;
  if spillable_state st then
    move_inplace (Base base) "cpu";;
    st ← load base;
    match pmemoryview (_ptr_desc st) with
    | None => raise (KeyError "memoryview")
    | Some mv =>
      sz ← query (size self);
      mret (host_slice mv offset (offset + sz))
    end
  else
    if negb (String.eqb (ptype (_ptr_desc st)) "gpu") then raise AssertionError else
    sz ← query (size self);
    ret_ ← bytearray sz;
    copy_ptr_to_host (_ptr st + offset) ret_.

(** The first part of [__init__]: pointer, size and owner of the data.  With
    [exposed] set, a host source goes through [numpy.array] and
    [get_ptr_and_size], which can raise; the new device buffer holds the
    bytes of the array and has its size. *)
Definition init_state (data : data_source) (exposed : bool) (now : nat) : M base_state :=
  match data with
  | SrcSpillable _ => raise (ValueError msg_from_spillable)
  | SrcDeviceBuffer p n | SrcCudaArray p n =>
    mret (BaseState 1 exposed now (PtrDesc "gpu" None) p (Z.of_nat n) (Some p))
  | SrcHost content contiguous =>
    if exposed then
      match get_ptr_and_size content contiguous with
      | inl err => raise err
      | inr array =>
        buf ← to_device array;
        mret (BaseState 1 false now (PtrDesc "gpu" None) buf
                (Z.of_nat (length array)) (Some buf))
      end
    else if negb contiguous then raise (ValueError msg_not_contiguous)
    else mret (BaseState 1 false now (PtrDesc "cpu" (Some content)) 0
                 (Z.of_nat (length content)) None)
  end.

Definition new_object (st : base_state) : M ref :=
  w ← get;
  modify (set_heap (heap w ++ [st]));;
  mret (length (heap w)).

(** The second part of [__init__]: the manager is told about the buffer,
    then spills down to the device limit. *)
Definition init_manager (st : base_state) (self : ref) : M SpillableBuffer :=
  base ← query (λ w, Some (lookup_address_range (_ptr st) (_size st) w));
  match base with
  | Some b => ptr (Base b);; mret tt
  | None => if negb (_exposed st) then manager_add self else mret tt
  end;;
  spill_to_device_limit;;
  mret (Base self).

Definition __init__ (data : data_source) (exposed : bool) : M SpillableBuffer :=
  now ← monotonic;
  st ← init_state data exposed now;
  self ← new_object st;
  init_manager st self.

Definition serialize (self : SpillableBuffer) : M (header * list data_source) :=
  let header := Header "SpillableBuffer" 1 in
  spilled ← query (is_spilled self);
  if (spilled : bool) then
    (mv ← memoryview self;
     mret (header, [SrcHost mv true]))
  else mret (header, [SrcSpillable self]).

Definition deserialize (header : header) (frames : list data_source) : M SpillableBuffer :=
  if negb (frame_count header =? 1) then raise (ValueError msg_single_frame) else
  match frames with
  | [] => raise (ValueError msg_unpack_few)
  | [frame] =>
    match frame with
    | SrcSpillable b => mret b
    | _ => __init__ frame false
    end
  | _ => raise (ValueError msg_unpack_many)
  end.

(** Destroying (or clearing) an owner vector releases every copy of an
    expose counter it holds: each use count goes down by one. *)
Definition release_token (r : ref) (h : list base_state) : list base_state :=
  alter (λ st, with_expose_counter st (pred (_expose_counter st))) r h.

Definition release_owners (owners_vec : nat) : M unit :=
  modify (λ w,
    match owners w !! owners_vec with
    | None => w
    | Some tokens =>
      set_owners (<[owners_vec := []]> (owners w))
        (set_heap (foldr release_token (heap w) tokens) w)
    end).

Definition new_owners : M nat :=
  w ← get;
  modify (set_owners (owners w ++ [[]]));;
  mret (length (owners w)).

(** ** Programs: sequences of calls *)

Inductive op :=
| OpInit (data : data_source) (exposed : bool)
| OpMoveInplace (b : SpillableBuffer) (target : string)
| OpPtr (b : SpillableBuffer)
| OpPtrRaw (b : SpillableBuffer) (owners_vec : nat)
| OpNewOwners
| OpReleaseOwners (owners_vec : nat)
| OpMemoryview (b : SpillableBuffer)
| OpGetitem (b : SpillableBuffer) (key : slice)
| OpSerialize (b : SpillableBuffer)
| OpDeserialize (h : header) (frames : list data_source)
| OpSpillToDeviceLimit.

Definition exec_op (o : op) (w : World) : World :=
  match o with
  | OpInit data e => after (__init__ data e) w
  | OpMoveInplace b target => after (move_inplace b target) w
  | OpPtr b => after (ptr b) w
  | OpPtrRaw b v => after (ptr_raw b v) w
  | OpNewOwners => after new_owners w
  | OpReleaseOwners v => after (release_owners v) w
  | OpMemoryview b => after (memoryview b) w
  | OpGetitem b key => after (__getitem__ b key) w
  | OpSerialize b => after (serialize b) w
  | OpDeserialize h frames => after (deserialize h frames) w
  | OpSpillToDeviceLimit => after spill_to_device_limit w
  end.

Definition exec (ops : list op) (w : World) : World :=
  foldl (λ w o, exec_op o w) w ops.

Definition reachable (w : World) : Prop :=
  ∃ d limit ops, w = exec ops (initial_world d limit).

End Operations.

(** ** Observations used in the statements *)

(** The number of live pin tokens of a base buffer: the copies of its
    expose counter held in owner vectors. *)
Definition count_in (r : ref) (tokens : list ref) : nat :=
  length (filter (λ t, t = r) tokens).

Definition live_tokens (w : World) (r : ref) : nat :=
  sum_list (count_in r <$> owners w).

(** The pin count: the use count of the expose counter minus one. *)
Definition pin_count (b : SpillableBuffer) (w : World) : option Z :=
  (λ c, Z.of_nat c - 1) <$> expose_counter b w.

(** The bytes a buffer stands for: those of the host buffer when spilled,
    those found in device memory at its address otherwise; a view stands
    for the bytes [offset, offset + size) of its base. *)
Definition base_contents (w : World) (st : base_state) : bytes :=
  if is_spilled_state st then default [] (pmemoryview (_ptr_desc st))
  else dev_read (device w) (_ptr st) (Z.to_nat (_size st)).

Definition contents (b : SpillableBuffer) (w : World) : option bytes :=
  match b with
  | Base r => base_contents w <$> heap w !! r
  | View vd sz =>
    (λ st, take (Z.to_nat sz) (drop (Z.to_nat (vd_offset vd)) (base_contents w st)))
      <$> heap w !! vd_base vd
  end.

(** The offset of a handle into its base. *)
Definition view_offset (b : SpillableBuffer) : Z :=
  match b with
  | Base _ => 0
  | View vd _ => vd_offset vd
  end.

(** The device address of a base buffer. *)
Definition address (b : SpillableBuffer) (w : World) : option Z :=
  _ptr <$> heap w !! base_ref b.

(** A handle that denotes a buffer: a base that exists, or a view that lies
    inside its base. *)
Definition in_bounds (w : World) (b : SpillableBuffer) : Prop :=
  match b with
  | Base r => is_Some (heap w !! r)
  | View vd sz =>
    ∃ st, heap w !! vd_base vd = Some st
          ∧ 0 ≤ vd_offset vd < 2 ^ 64 ∧ 0 ≤ sz ∧ vd_offset vd + sz ≤ _size st
  end.

(** ** The invariant of reachable worlds *)

(** A base buffer is on the device, or it is on the host, spillable, and
    holds a host buffer of its size. *)
Definition resident_ok (st : base_state) : Prop :=
  0 ≤ _size st
  ∧ (ptype (_ptr_desc st) = "gpu"
     ∨ (ptype (_ptr_desc st) = "cpu" ∧ spillable_state st = true
        ∧ ∃ mv, pmemoryview (_ptr_desc st) = Some mv
                ∧ Z.of_nat (length mv) = _size st)).

Record inv (w : World) : Prop := {
  inv_counter : ∀ r st, heap w !! r = Some st →
                _expose_counter st = S (live_tokens w r);
  inv_resident : ∀ r st, heap w !! r = Some st → resident_ok st;
  inv_tokens : ∀ v tokens t, owners w !! v = Some tokens → t ∈ tokens →
               (t < length (heap w))%nat;
  inv_registered : ∀ r, r ∈ base_buffers (manager w) → (r < length (heap w))%nat;
}.

(** ** Atomic mutations

    Every method changes the world through a few kinds of elementary
    updates; each carries the condition under which the code performs it. *)

Inductive label :=
| LSpill (r : ref)
| LUnspill (r : ref)
| LExpose (r : ref)
| LTouch (r : ref)
| LPin (r : ref) (v : nat)
| LNew
| LRegister (r : ref)
| LDevice
| LTick
| LRelease (v : nat)
| LNewOwners.

Definition fresh_ok (st : base_state) : Prop :=
  _expose_counter st = 1%nat ∧ resident_ok st.

Inductive mstep : label → World → World → Prop :=
| ms_spill r st mv w w' :
    heap w !! r = Some st →
    is_spilled_state st = false →
    spillable_state st = true →
    Z.of_nat (length mv) = _size st →
    w' = set_heap (<[r := with_residency st (PtrDesc "cpu" (Some mv)) 0 (_size st) None]>
                     (heap w)) w →
    mstep (LSpill r) w w'
| ms_unspill r st p w w' :
    heap w !! r = Some st →
    is_spilled_state st = true →
    w' = set_heap (<[r := with_residency st (PtrDesc "gpu" None) p (_size st) (Some p)]>
                     (heap w)) w →
    mstep (LUnspill r) w w'
| ms_expose r st w w' :
    heap w !! r = Some st →
    ptype (_ptr_desc st) = "gpu" →
    w' = set_heap (<[r := with_exposed st true]> (heap w)) w →
    mstep (LExpose r) w w'
| ms_touch r st t w w' :
    heap w !! r = Some st →
    w' = set_heap (<[r := with_last_accessed st t]> (heap w)) w →
    mstep (LTouch r) w w'
| ms_pin r v st tokens w w' :
    heap w !! r = Some st →
    ptype (_ptr_desc st) = "gpu" →
    owners w !! v = Some tokens →
    w' = set_owners (<[v := tokens ++ [r]]> (owners w))
           (set_heap (<[r := with_expose_counter st (S (_expose_counter st))]> (heap w)) w) →
    mstep (LPin r v) w w'
| ms_new st w w' :
    fresh_ok st →
    w' = set_heap (heap w ++ [st]) w →
    mstep LNew w w'
| ms_register r w w' :
    (r < length (heap w))%nat →
    w' = set_manager (Manager (base_buffers (manager w) ++ [r])
                        (device_memory_limit (manager w))) w →
    mstep (LRegister r) w w'
| ms_device d w w' :
    w' = set_device d w →
    mstep LDevice w w'
| ms_tick c w w' :
    w' = set_clock c w →
    mstep LTick w w'
| ms_release v tokens w w' :
    owners w !! v = Some tokens →
    w' = set_owners (<[v := []]> (owners w))
           (set_heap (foldr release_token (heap w) tokens) w) →
    mstep (LRelease v) w w'
| ms_new_owners w w' :
    w' = set_owners (owners w ++ [[]]) w →
    mstep LNewOwners w w'.

(** A run of atomic mutations whose labels all satisfy [A]. *)
Inductive muts (A : label → Prop) : World → World → Prop :=
| muts_refl w : muts A w w
| muts_step l w1 w2 w3 : A l → mstep l w1 w2 → muts A w2 w3 → muts A w1 w3.

(** The labels of the mutations each method can perform. *)

Definition is_spill (l : label) : Prop := ∃ r, l = LSpill r.

Definition move_labels (r : ref) (target : string) (l : label) : Prop :=
  (l = LSpill r ∧ target = "cpu") ∨ ((l = LUnspill r ∨ l = LDevice) ∧ target = "gpu").

Definition spill_labels (limit : option Z) (l : label) : Prop :=
  is_spill l ∧ is_Some limit.

Definition ptr_labels (limit : option Z) (r : ref) (l : label) : Prop :=
  spill_labels limit l
  ∨ l = LUnspill r ∨ l = LDevice ∨ l = LExpose r ∨ l = LTouch r ∨ l = LTick.



Definition pin_labels (r : ref) (v : nat) (l : label) : Prop :=
  l = LUnspill r ∨ l = LDevice ∨ l = LTouch r ∨ l = LTick ∨ l = LPin r v.

Definition init_labels (limit : option Z) (n : nat) (l : label) : Prop :=
  spill_labels limit l
  ∨ (∃ r, (r < n)%nat ∧ (l = LUnspill r ∨ l = LExpose r ∨ l = LTouch r))
  ∨ l = LDevice ∨ l = LTick ∨ l = LNew ∨ (∃ r, l = LRegister r).

(** The calls that can expose a buffer: [ptr], and the constructor, which
    exposes an already known buffer that overlaps the new one. *)
Definition exposing (o : op) : Prop :=
  match o with
  | OpPtr _ | OpInit _ _ | OpDeserialize _ _ => True
  | _ => False
  end.

Definition op_labels (o : op) (l : label) : Prop :=
  match l with
  | LExpose _ => exposing o
  | LRelease v => o = OpReleaseOwners v
  | _ => True
  end.

(** Objects stay, keep their size, and never lose their exposure. *)
Definition object_le (no_expose : Prop) (st st' : base_state) : Prop :=
  _size st' = _size st
  ∧ (_exposed st = true → _exposed st' = true)
  ∧ (no_expose → _exposed st' = _exposed st).

(** An object is left as it is by the mutations that do not name it; a
    spilled object cannot be spilled. *)
Definition keeps (r : ref) (spilled : bool) (l : label) : Prop :=
  match l with
  | LSpill r' => r' = r → spilled = true
  | LUnspill r' | LExpose r' | LTouch r' | LPin r' _ => r' ≠ r
  | LRelease _ => False
  | _ => True
  end.

(** ** Example worlds

    A bump allocator, which places a new allocation above every mapped
    address, a manager that takes the oldest object first, and a helper
    that takes a contiguous host source as it is and refuses any other. *)

Definition bump_alloc (d : gmap Z Byte.byte) (n : nat) : Z :=
  map_fold (λ k _ acc, Z.max (k + 1) acc) 4096 d.

Definition example_external : External :=
  {| rmm_alloc := bump_alloc;
     eviction_rank _ r := r;
     get_ptr_and_size content contiguous :=
       if contiguous then inr content else inl (Foreign "get_ptr_and_size") |}.

Definition bytes4 : bytes := [Byte.x01; Byte.x02; Byte.x03; Byte.x04].

(** A host buffer of four bytes, an owner vector, and a pin on the buffer. *)
Definition world_pinned : World :=
  exec (Ext := example_external)
    [OpInit (SrcHost bytes4 true) false; OpNewOwners; OpPtrRaw (Base 0) 0]
    (initial_world ∅ None).

(** A device buffer of eight bytes whose pointer has been handed out. *)
Definition world_exposed : World :=
  exec (Ext := example_external)
    [OpInit (SrcDeviceBuffer 4096 8) false; OpPtr (Base 0)]
    (initial_world ∅ None).

(** A host buffer of four bytes and an empty owner vector. *)
Definition world_host : World :=
  exec (Ext := example_external)
    [OpInit (SrcHost bytes4 true) false; OpNewOwners]
    (initial_world ∅ None).

(** A device buffer of 1024 bytes. *)
Definition world_1024 : World :=
  exec (Ext := example_external)
    [OpInit (SrcDeviceBuffer 4096 1024) false]
    (initial_world ∅ None).

(** ** Python slicing of a byte string

    The bounds that Python slicing gives for a key on a sequence of a
    length, for a step of one, and the bytes of the slice. *)
Definition slice_lo (key : slice) (len : Z) : Z :=
  match slice_start key with
  | None => 0
  | Some s => clamp s len
  end.

Definition slice_hi (key : slice) (len : Z) : Z :=
  match slice_stop key with
  | None => len
  | Some s => clamp s len
  end.

Definition bytes_slice (m : bytes) (key : slice) : bytes :=
  let len := Z.of_nat (length m) in
  take (Z.to_nat (slice_hi key len - slice_lo key len))
    (drop (Z.to_nat (slice_lo key len)) m).

(** ** [DelayedPointerTuple] and [__cuda_array_interface__] *)

(** The items of the tuple: an address or a boolean. *)
Inductive tuple_item :=
| ItemInt (z : Z)
| ItemBool (b : bool).

(** [IndexError("tuple index out of range")], the one exception of
    [DelayedPointerTuple.__getitem__] that is not an exception of the
    buffer; it is returned on the left of a sum. *)
Inductive index_error := IndexError.

Record DelayedPointerTuple := MkDelayedPointerTuple {
  _buf : SpillableBuffer;
}.

Record cuda_array_interface := CudaArrayInterface {
  cai_data : DelayedPointerTuple;
  cai_shape : Z;
  cai_strides : option Z;
  cai_typestr : string;
  cai_version : Z;
}.

Section Interface.

Context `{Ext : External}.

Definition dpt_len (self : DelayedPointerTuple) : Z := 2.

Definition dpt_getitem (self : DelayedPointerTuple) (i : Z)
    : M (index_error + tuple_item) :=
  if i =? 0 then p ← ptr (_buf self); mret (inr (ItemInt p))
  else if i =? 1 then mret (inr (ItemBool false))
  else mret (inl IndexError).

Definition __cuda_array_interface__ (self : SpillableBuffer) : M cuda_array_interface :=
  sz ← query (size self);
  mret (CudaArrayInterface (MkDelayedPointerTuple self) sz None "|u1" 0).

End Interface.

(** ** Columns

    The part of a [Column] that reads its data buffer: the number of
    elements, the offset in elements, the size of an element
    ([dtype.itemsize]), the base buffer and the cached buffer of the
    elements.  The buffers are spillable buffers; a column is a value, and
    an accessor that fills the cache returns the column it leaves. *)
Module Column.

Record t := Make {
  _size : Z;
  _offset : Z;
  itemsize : Z;
  _base_data : option SpillableBuffer;
  _data : option SpillableBuffer;
}.

(** What [None.ptr] raises. *)
Inductive attribute_error := AttributeError.

Definition with_data (self : t) (d : option SpillableBuffer) : t :=
  Make (_size self) (_offset self) (itemsize self) (_base_data self) d.

Section Accessors.

Context `{Ext : External}.

Definition base_data_ptr (self : t) : M Z :=
  match _base_data self with
  | None => mret 0
  | Some base_data => ptr base_data
  end.

Definition data (self : t) : M (option SpillableBuffer * t) :=
  match _base_data self with
  | None => mret (None, self)
  | Some base_data =>
    match _data self with
    | Some d => mret (Some d, self)
    | None =>
      let start := _offset self * itemsize self in
      let end_ := start + _size self * itemsize self in
      spans ← (if start =? 0
               then len ← query (size base_data); mret (end_ =? len)
               else mret false);
      d ← (if spans : bool then mret base_data
           else __getitem__ base_data (Slice (Some start) (Some end_) None));
      mret (Some d, with_data self (Some d))
    end
  end.

(** [data_ptr] reads the [data] property twice. *)
Definition data_ptr (self : t) : M (attribute_error + Z * t) :=
  '(d, self) ← data self;
  match d with
  | None => mret (inr (0, self))
  | Some _ =>
    '(d, self) ← data self;
    match d with
    | None => mret (inl AttributeError)
    | Some d => p ← ptr d; mret (inr (p, self))
    end
  end.

End Accessors.

End Column.

(** The buffer that [data] gives for a column that lies inside its base
    buffer. *)
Definition column_view (c : Column.t) (b : SpillableBuffer) (len : Z) : SpillableBuffer :=
  let start := Column._offset c * Column.itemsize c in
  let n := Column._size c * Column.itemsize c in
  if (start =? 0) && (n =? len) then b
  else View (ViewDesc (base_ref b) (view_offset b + start)) n.

(** ** Padding of strings

    The device functions that pad a string of the string UDFs.  A
    [string_view] is the list of its bytes, [size_type] is a signed integer
    of 32 bits, [char_utf8] an unsigned one.  What a function gives is the
    bytes it stores from the position [output] on. *)

Definition int32 (z : Z) : Z := (z + 2 ^ 31) `mod` 2 ^ 32 - 2 ^ 31.

(** The string library that the functions call. *)
Class StringLib := {
  (** [string_view::length()], the number of characters *)
  string_length : bytes → Z;
  (** the bytes that [from_char_utf8] stores; it returns their number *)
  from_char_utf8 : Z → bytes;
}.

Inductive side_type := LEFT | RIGHT | BOTH.

Definition size_bytes (d_str : bytes) : Z := Z.of_nat (length d_str).

Definition copy_string (output d_str : bytes) : bytes := output ++ d_str.

(** [while (length++ < width)] with a body that stores [chunk] *)
Fixpoint fill_up (fuel : nat) (length width : Z) (chunk output : bytes) : bytes :=
  match fuel with
  | O => output
  | S fuel =>
    if length <? width
    then fill_up fuel (int32 (length + 1)) width chunk (output ++ chunk)
    else output
  end.

(** [while (pad-- > 0)] with a body that stores [chunk] *)
Fixpoint fill_down (fuel : nat) (pad : Z) (chunk output : bytes) : bytes :=
  match fuel with
  | O => output
  | S fuel =>
    if pad >? 0
    then fill_down fuel (int32 (pad - 1)) chunk (output ++ chunk)
    else output
  end.

(** [n] times the bytes [chunk] *)
Definition fills (n : nat) (chunk : bytes) : bytes := concat (replicate n chunk).

(** The fills on the right of a string padded on both sides, for the number
    [pad] of fills. *)
Definition right_fills (width pad : Z) : Z :=
  if Z.odd width then pad / 2 else pad - pad / 2.

Section Padding.

Context `{Lib : StringLib}.

Definition compute_padded_size (d_str : bytes) (width fill_char_size : Z) : Z :=
  let length := string_length d_str in
  let bytes := size_bytes d_str in
  if width >? length
  then int32 (bytes + int32 (fill_char_size * int32 (width - length)))
  else bytes.

(** The loops run as long as their tests hold: the fuel is the number of
    rounds after which the test fails. *)
Definition pad_impl (side : side_type) (d_str : bytes) (width fill_char : Z) : bytes :=
  let length := string_length d_str in
  let fill := from_char_utf8 fill_char in
  match side with
  | LEFT =>
    let output := fill_up (Z.to_nat (width - length)) length width fill [] in
    copy_string output d_str
  | RIGHT =>
    let output := copy_string [] d_str in
    fill_up (Z.to_nat (width - length)) length width fill output
  | BOTH =>
    let pad_size := int32 (width - length) in
    let right_pad :=
      if negb (Z.land width 1 =? 0) then pad_size ÷ 2
      else int32 (pad_size - pad_size ÷ 2) in
    let left_pad := int32 (pad_size - right_pad) in
    let output := fill_down (Z.to_nat left_pad) left_pad fill [] in
    let output := copy_string output d_str in
    fill_down (Z.to_nat right_pad) right_pad fill output
  end.

Definition is_sign (c : Byte.byte) : bool :=
  Byte.eqb c Byte.x2d || Byte.eqb c Byte.x2b.

Definition zfill_impl (d_str : bytes) (width : Z) : bytes :=
  let length := string_length d_str in
  let '(output, d_str) :=
    match d_str with
    | c :: rest => if is_sign c then ([c], rest) else ([], d_str)
    | [] => ([], d_str)
    end in
  let output := fill_up (Z.to_nat (width - length)) length width [Byte.x30] output in
  copy_string output d_str.

End Padding.

(** Strings of ASCII characters: a character is a byte. *)
Definition ascii_strings : StringLib := {|
  string_length d_str := Z.of_nat (length d_str);
  from_char_utf8 c := [default Byte.x00 (Byte.of_N (Z.to_N c))];
|}.

(** ["fox"], ["foxx"] and ["-42"] *)
Definition str_fox : bytes := [Byte.x66; Byte.x6f; Byte.x78].
Definition str_foxx : bytes := [Byte.x66; Byte.x6f; Byte.x78; Byte.x78].
Definition str_minus_42 : bytes := [Byte.x2d; Byte.x34; Byte.x32].

(** ** Running monadic code *)

Ltac munfold :=
  unfold load, store, monotonic in *;
  unfold after, result, mbind, M_bind, bind, mret, M_ret, ret, raise, get,
    modify, query in *.

(** * Proofs *)

(** ** Runs of mutations *)

Lemma muts_one A l w w' : A l → mstep l w w' → muts A w w'.
Proof. intros Hl Hs. eapply muts_step; [exact Hl | exact Hs | apply muts_refl]. Qed.

Lemma muts_trans A w1 w2 w3 : muts A w1 w2 → muts A w2 w3 → muts A w1 w3.
Proof.
  induction 1 as [|l wa wb wc Hl Hs _ IH]; [done|].
  intros H3. eapply muts_step; eauto.
Qed.

Lemma muts_weaken (A B : label → Prop) w w' :
  (∀ l, A l → B l) → muts A w w' → muts B w w'.
Proof.
  intros HAB. induction 1 as [|l wa wb wc Hl Hs _ IH]; [apply muts_refl|].
  eapply muts_step; eauto.
Qed.

(** ** Counting tokens *)

Lemma sum_list_insert (l : list nat) (i x y : nat) :
  l !! i = Some x → (sum_list (<[i := y]> l) + x = sum_list l + y)%nat.
Proof.
  revert i. induction l as [|a l IH]; intros [|i] Hi; simplify_eq/=; [lia|].
  specialize (IH _ Hi). lia.
Qed.

Lemma count_in_snoc r tokens t :
  count_in r (tokens ++ [t]) = (count_in r tokens + if decide (t = r) then 1 else 0)%nat.
Proof.
  unfold count_in. rewrite filter_app, length_app. f_equal.
  rewrite filter_cons, filter_nil. by case_decide.
Qed.

Lemma count_in_cons r tokens t :
  count_in r (t :: tokens) = ((if decide (t = r) then 1 else 0) + count_in r tokens)%nat.
Proof. unfold count_in. rewrite filter_cons. by case_decide. Qed.

Lemma count_in_absent r tokens : r ∉ tokens → count_in r tokens = 0%nat.
Proof.
  induction tokens as [|t tokens IH]; [done|].
  rewrite not_elem_of_cons, count_in_cons. intros [Hne Hni].
  rewrite decide_False by congruence. by rewrite IH.
Qed.

Lemma live_tokens_insert w v tokens tokens' r :
  owners w !! v = Some tokens →
  (live_tokens (set_owners (<[v := tokens']> (owners w)) w) r + count_in r tokens
   = live_tokens w r + count_in r tokens')%nat.
Proof.
  intros Hv. unfold live_tokens. simpl. rewrite list_fmap_insert.
  apply sum_list_insert. by rewrite list_lookup_fmap, Hv.
Qed.

Lemma live_tokens_fresh w r :
  (∀ v tokens t, owners w !! v = Some tokens → t ∈ tokens → t ≠ r) →
  live_tokens w r = 0%nat.
Proof.
  unfold live_tokens. induction (owners w) as [|tokens os IH]; intros H; [done|].
  csimpl. rewrite IH.
  - rewrite count_in_absent; [done|].
    intros Hin. by apply (H 0%nat tokens r).
  - intros v ts t Hv. by apply (H (S v)).
Qed.

(** ** The invariant is kept by every atomic mutation *)

Lemma inv_update w r st st' :
  inv w → heap w !! r = Some st →
  _expose_counter st' = _expose_counter st → resident_ok st' →
  inv (set_heap (<[r := st']> (heap w)) w).
Proof.
  intros [I1 I2 I3 I4] Hr Hc Hres. split; simpl.
  - intros r0 st0 [(-> & -> & _)|(Hne & H0)]%list_lookup_insert_Some.
    + rewrite Hc. by apply (I1 _ _ Hr).
    + by apply I1.
  - intros r0 st0 [(-> & -> & _)|(Hne & H0)]%list_lookup_insert_Some; [done|].
    by eapply I2.
  - intros v tokens t Hv Ht. rewrite length_insert. by eapply I3.
  - intros r0 Hr0. rewrite length_insert. by apply I4.
Qed.

Lemma foldr_release_lookup (h : list base_state) tokens r :
  foldr release_token h tokens !! r
  = (λ st, with_expose_counter st (_expose_counter st - count_in r tokens))
      <$> h !! r.
Proof.
  induction tokens as [|t tokens IH]; simpl.
  - change (count_in r []) with 0%nat.
    destruct (h !! r) as [st|]; simpl; [|done].
    rewrite Nat.sub_0_r. by destruct st.
  - unfold release_token at 1. rewrite count_in_cons.
    destruct (decide (t = r)) as [->|Hne].
    + rewrite list_lookup_alter_eq, IH. destruct (h !! r) as [st|]; simpl; [|done].
      unfold with_expose_counter; simpl. do 2 f_equal. lia.
    + rewrite list_lookup_alter_ne by done. by rewrite IH.
Qed.

Lemma foldr_release_length (h : list base_state) tokens :
  length (foldr release_token h tokens) = length h.
Proof.
  induction tokens as [|t tokens IH]; simpl; [done|].
  unfold release_token at 1. by rewrite length_alter.
Qed.

Lemma resident_ok_gpu st : 0 ≤ _size st → ptype (_ptr_desc st) = "gpu" → resident_ok st.
Proof. intros. split; auto. Qed.

Lemma is_spilled_state_false st :
  is_spilled_state st = false ↔ ptype (_ptr_desc st) = "gpu".
Proof.
  unfold is_spilled_state. rewrite negb_false_iff. apply String.eqb_eq.
Qed.

Lemma spillable_state_true st :
  spillable_state st = true ↔ _exposed st = false ∧ _expose_counter st = 1%nat.
Proof.
  unfold spillable_state. rewrite andb_true_iff, negb_true_iff, Nat.eqb_eq. done.
Qed.

Lemma mstep_inv l w w' : mstep l w w' → inv w → inv w'.
Proof.
  intros Hs Hinv. destruct Hs as
    [r st mv w w' Hr Hsp Hsa Hlen ->|r st p w w' Hr Hsp ->|r st w w' Hr Hg ->
    |r st t w w' Hr ->|r v st tokens w w' Hr Hg Hv ->|st w w' [Hc Hok] ->
    |r w w' Hr ->|d w w' ->|c w w' ->|v tokens w w' Hv ->|w w' ->].
  - (* spill *)
    eapply inv_update; eauto. destruct (inv_resident _ Hinv _ _ Hr) as [Hsz _].
    split; [done|]. right. simpl. repeat split; eauto.
  - (* unspill *)
    eapply inv_update; eauto. destruct (inv_resident _ Hinv _ _ Hr) as [Hsz _].
    by apply resident_ok_gpu.
  - (* expose *)
    eapply inv_update; eauto. destruct (inv_resident _ Hinv _ _ Hr) as [Hsz _].
    by apply resident_ok_gpu.
  - (* touch *)
    eapply inv_update; eauto. exact (inv_resident _ Hinv _ _ Hr).
  - (* pin *)
    destruct Hinv as [I1 I2 I3 I4].
    assert (Hlt : (r < length (heap w))%nat) by (by eapply lookup_lt_Some).
    split; simpl.
    + intros r0 st0 H0.
      pose proof (live_tokens_insert w v tokens (tokens ++ [r]) r0 Hv) as Hlive.
      rewrite count_in_snoc in Hlive.
      assert (live_tokens (set_owners (<[v:=tokens ++ [r]]> (owners w))
                (set_heap (<[r:=with_expose_counter st (S (_expose_counter st))]> (heap w)) w)) r0
              = live_tokens (set_owners (<[v:=tokens ++ [r]]> (owners w)) w) r0) as -> by done.
      apply list_lookup_insert_Some in H0 as [(-> & <- & _)|(Hne & H0)]; simpl.
      * rewrite decide_True in Hlive by done. rewrite (I1 _ _ Hr). lia.
      * rewrite decide_False in Hlive by done. rewrite (I1 _ _ H0). lia.
    + intros r0 st0 [(-> & <- & _)|(Hne & H0)]%list_lookup_insert_Some; [|by eapply I2].
      destruct (I2 _ _ Hr) as [Hsz _]. by apply resident_ok_gpu.
    + intros v0 ts t H0 Ht. rewrite length_insert.
      apply list_lookup_insert_Some in H0 as [(-> & <- & _)|(Hne & H0)]; [|by eapply I3].
      apply elem_of_app in Ht as [Ht|Ht%list_elem_of_singleton]; [by eapply I3|by subst].
    + intros r0 Hr0. rewrite length_insert. by apply I4.
  - (* new *)
    destruct Hinv as [I1 I2 I3 I4]. split; simpl.
    + intros r0 st0 H0.
      assert (live_tokens (set_heap (heap w ++ [st]) w) r0 = live_tokens w r0) as -> by done.
      apply lookup_app_Some in H0 as [H0|[Hge H0]]; [by apply I1|].
      apply list_lookup_singleton_Some in H0 as [Hz <-].
      rewrite Hc, live_tokens_fresh; [done|].
      intros v ts t Hv Ht. specialize (I3 _ _ _ Hv Ht). lia.
    + intros r0 st0 [H0|[Hge H0]]%lookup_app_Some; [by eapply I2|].
      by apply list_lookup_singleton_Some in H0 as [Hz <-].
    + intros v ts t Hv Ht. rewrite length_app. specialize (I3 _ _ _ Hv Ht). lia.
    + intros r0 Hr0. rewrite length_app. specialize (I4 _ Hr0). lia.
  - (* register *)
    destruct Hinv as [I1 I2 I3 I4]. split; simpl; eauto.
    intros r0 [H0|H0%list_elem_of_singleton]%elem_of_app; [by apply I4|by subst].
  - (* device *) destruct Hinv as [I1 I2 I3 I4]. by split.
  - (* tick *) destruct Hinv as [I1 I2 I3 I4]. by split.
  - (* release *)
    destruct Hinv as [I1 I2 I3 I4].
    assert (Hcount : ∀ r0 st0, heap w !! r0 = Some st0 →
              (live_tokens (set_owners (<[v:=[]]> (owners w)) w) r0 + count_in r0 tokens
               = live_tokens w r0)%nat).
    { intros r0 st0 H0.
      pose proof (live_tokens_insert w v tokens [] r0 Hv) as Hlive.
      unfold count_in at 2 in Hlive. simpl in Hlive. lia. }
    split; simpl.
    + intros r0 st0 H0. rewrite foldr_release_lookup in H0.
      destruct (heap w !! r0) as [st1|] eqn:H1; simplify_eq/=.
      specialize (Hcount _ _ H1). rewrite (I1 _ _ H1).
      rewrite <- Hcount.
      change (live_tokens (set_owners (<[v:=[]]> (owners w))
                (set_heap (foldr release_token (heap w) tokens) w)) r0)
        with (live_tokens (set_owners (<[v:=[]]> (owners w)) w) r0).
      generalize (live_tokens (set_owners (<[v:=[]]> (owners w)) w) r0). lia.
    + intros r0 st0 H0. rewrite foldr_release_lookup in H0.
      destruct (heap w !! r0) as [st1|] eqn:H1; simplify_eq/=.
      destruct (I2 _ _ H1) as [Hsz Hres]. split; [done|].
      destruct Hres as [Hg|(Hc & Hsa & mv & Hmv & Hlen)]; [by left|right].
      simpl. split; [done|]. split; [|by eauto].
      apply spillable_state_true in Hsa as [He Hone].
      specialize (Hcount _ _ H1). rewrite (I1 _ _ H1) in Hone.
      apply spillable_state_true. simpl. split; [done|]. rewrite (I1 _ _ H1). lia.
    + intros v0 ts t H0 Ht. rewrite foldr_release_length.
      apply list_lookup_insert_Some in H0 as [(-> & <- & _)|(Hne & H0)]; [|by eapply I3].
      by apply elem_of_nil in Ht.
    + intros r0 Hr0. rewrite foldr_release_length. by apply I4.
  - (* new owners *)
    destruct Hinv as [I1 I2 I3 I4]. split; simpl; eauto.
    + intros r0 st0 H0. rewrite (I1 _ _ H0). unfold live_tokens. simpl.
      rewrite fmap_app, sum_list_with_app. simpl. by rewrite Nat.add_0_r.
    + intros v ts t [H0|[Hge H0]]%lookup_app_Some Ht; [by eapply I3|].
      apply list_lookup_singleton_Some in H0 as [_ <-]. by apply elem_of_nil in Ht.
Qed.

Lemma muts_inv A w w' : muts A w w' → inv w → inv w'.
Proof. induction 1; eauto using mstep_inv. Qed.

Lemma run_bind {A B} (m : M A) (f : A → M B) w :
  (m ≫= f) w = match m w with
               | (inr a, w') => f a w'
               | (inl e, w') => (inl e, w')
               end.
Proof. done. Qed.

Lemma muts_bind {A B} P (m : M A) (f : A → M B) w :
  muts P w (after m w) →
  (∀ a, result m w = inr a → muts P (after m w) (after (f a) (after m w))) →
  muts P w (after (m ≫= f) w).
Proof.
  unfold after, result. rewrite run_bind.
  destruct (m w) as [[e|a] w1]; simpl; [done|].
  intros H1 H2. eapply muts_trans; eauto.
Qed.

Lemma length_dev_read d p n : length (dev_read d p n) = n.
Proof. revert p. induction n as [|n IH]; intros p; simpl; [done|]. by rewrite IH. Qed.

Lemma load_Some r w st : result (load r) w = inr st → heap w !! r = Some st.
Proof. munfold. destruct (heap w !! r); simpl; intros ?; by simplify_eq. Qed.

Lemma after_load r w : after (load r) w = w.
Proof. munfold. by destruct (heap w !! r). Qed.

Lemma after_query {A} (q : World → option A) w : after (query q) w = w.
Proof. munfold. by destruct (q w). Qed.

Lemma query_Some {A} (q : World → option A) w a : result (query q) w = inr a → q w = Some a.
Proof. munfold. destruct (q w); simpl; intros ?; by simplify_eq. Qed.

Section Moves.

Context `{Ext : External}.

(** *** [move_inplace] *)

Lemma move_inplace_view vd sz target w :
  move_inplace (View vd sz) target w = (inl AssertionError, w).
Proof. done. Qed.

(** The move to the host of a device-resident spillable buffer. *)
Lemma move_inplace_spill r st w :
  heap w !! r = Some st → is_spilled_state st = false →
  spillable_state st = true → 0 ≤ _size st →
  move_inplace (Base r) "cpu" w
  = (inr tt,
     set_heap (<[r := with_residency st
                        (PtrDesc "cpu" (Some (dev_read (device w) (_ptr st)
                                                (Z.to_nat (_size st)))))
                        0 (_size st) None]> (heap w)) w).
Proof.
  intros Hr Hg Hsp Hsz. apply is_spilled_state_false in Hg.
  unfold move_inplace. munfold. rewrite Hr, Hg, Hsp. simpl.
  unfold bytearray. destruct (Z.ltb_spec (_size st) 0) as [?|_]; [lia|].
  unfold copy_ptr_to_host. munfold. by rewrite length_replicate.
Qed.

(** The move to the device of a host-resident buffer of a reachable world. *)
Lemma move_inplace_unspill r st w :
  heap w !! r = Some st → resident_ok st → is_spilled_state st = true →
  ∃ mv, pmemoryview (_ptr_desc st) = Some mv ∧ Z.of_nat (length mv) = _size st ∧
  let p := rmm_alloc (device w) (length mv) in
  move_inplace (Base r) "gpu" w
  = (inr tt,
     set_heap (<[r := with_residency st (PtrDesc "gpu" None) p (_size st) (Some p)]> (heap w))
       (set_device (dev_write (device w) p mv) w)).
Proof.
  intros Hr [Hsz [Hg|(Hc & Hsp & mv & Hmv & Hlen)]] Hs.
  { apply is_spilled_state_false in Hg. congruence. }
  exists mv. split; [done|]. split; [done|]. simpl.
  unfold move_inplace, to_device. munfold. rewrite Hr, Hc, Hsp, Hmv. simpl.
  by rewrite Hlen.
Qed.

Lemma move_inplace_same r st w :
  heap w !! r = Some st →
  move_inplace (Base r) (ptype (_ptr_desc st)) w = (inr tt, w).
Proof.
  intros Hr. unfold move_inplace. munfold. rewrite Hr. simpl.
  by rewrite String.eqb_refl.
Qed.

Lemma move_inplace_post r target w :
  result (move_inplace (Base r) target) w = inr tt →
  ∃ st, heap (after (move_inplace (Base r) target) w) !! r = Some st
        ∧ ptype (_ptr_desc st) = target.
Proof.
  unfold move_inplace, to_device, bytearray, copy_ptr_to_host. munfold.
  destruct (heap w !! r) as [st|] eqn:Hr; simpl; [|done].
  assert (Hlt : (r < length (heap w))%nat) by (by eapply lookup_lt_Some).
  destruct (String.eqb_spec (ptype (_ptr_desc st)) target) as [Heq|Hne]; simpl.
  { intros _. eauto. }
  destruct (spillable_state st); simpl; [|done].
  destruct (String.eqb (ptype (_ptr_desc st)) "gpu" && String.eqb target "cpu").
  { destruct (_size st <? 0); simpl; [done|]. intros _.
    eexists. split; [by apply list_lookup_insert_eq|done]. }
  destruct (String.eqb (ptype (_ptr_desc st)) "cpu" && String.eqb target "gpu");
    simpl; [|done].
  destruct (pmemoryview (_ptr_desc st)); simpl; [|done]. intros _.
  eexists. split; [by apply list_lookup_insert_eq|done].
Qed.

Lemma move_inplace_muts r target w :
  inv w → muts (move_labels r target) w (after (move_inplace (Base r) target) w).
Proof.
  intros Hinv.
  destruct (heap w !! r) as [st|] eqn:Hr.
  2:{ unfold move_inplace. munfold. rewrite Hr. apply muts_refl. }
  pose proof (inv_resident _ Hinv _ _ Hr) as Hres.
  destruct (String.eqb_spec (ptype (_ptr_desc st)) target) as [Heq|Hne].
  { subst target. unfold after. rewrite (move_inplace_same _ _ _ Hr). apply muts_refl. }
  destruct (spillable_state st) eqn:Hsp.
  2:{ unfold move_inplace. munfold. rewrite Hr. simpl.
      apply String.eqb_neq in Hne. rewrite Hne, Hsp. apply muts_refl. }
  destruct (String.eqb_spec target "cpu") as [->|Hncpu].
  - assert (Hg : is_spilled_state st = false).
    { destruct Hres as [_ [Hg|(Hc & _)]]; [by apply is_spilled_state_false|congruence]. }
    unfold after. rewrite (move_inplace_spill _ _ _ Hr Hg Hsp) by apply Hres.
    eapply muts_one; [left; done|].
    eapply ms_spill; eauto. rewrite length_dev_read. apply Z2Nat.id, Hres.
  - destruct (String.eqb_spec target "gpu") as [->|Hngpu].
    + assert (Hs : is_spilled_state st = true).
      { apply not_false_iff_true. by rewrite is_spilled_state_false. }
      destruct (move_inplace_unspill _ _ w Hr Hres Hs) as (mv & Hmv & Hlen & Hrun).
      unfold after. rewrite Hrun. simpl.
      eapply muts_step; [right; split; [right|]; done|by eapply ms_device|].
      eapply muts_one; [right; split; [left|]; done|].
      eapply ms_unspill; eauto.
    + unfold move_inplace. munfold. rewrite Hr. simpl.
      apply String.eqb_neq in Hne, Hncpu, Hngpu. rewrite Hne, Hsp, Hncpu, Hngpu.
      rewrite !andb_false_r. apply muts_refl.
Qed.

(** *** The manager *)

Lemma spill_loop_muts limit candidates w :
  inv w → muts is_spill w (after (spill_loop limit candidates) w).
Proof.
  revert w. induction candidates as [|r rest IH]; intros w Hinv; [apply muts_refl|].
  cbn [spill_loop]. apply muts_bind; [apply muts_refl|]. intros w' [= <-].
  change (after get w) with w.
  destruct (device_usage w <? limit); [apply muts_refl|].
  apply muts_bind.
  - destruct (heap w !! r) as [st|]; [|apply muts_refl].
    destruct (_ && _); [|apply muts_refl].
    eapply muts_weaken; [|by apply move_inplace_muts].
    intros l [[-> _]|[_ [=]]]. by exists r.
  - intros _ _. apply IH. eapply muts_inv; [|done].
    destruct (heap w !! r) as [st|]; [|apply muts_refl].
    destruct (_ && _); [|apply muts_refl]. by apply move_inplace_muts.
Qed.

Lemma spill_to_device_limit_muts w :
  inv w → muts is_spill w (after spill_to_device_limit w).
Proof.
  intros Hinv. unfold spill_to_device_limit.
  apply muts_bind; [apply muts_refl|]. intros w' [= <-]. change (after get w) with w.
  destruct (device_memory_limit (manager w)); [|apply muts_refl].
  by apply spill_loop_muts.
Qed.

Lemma spill_to_device_limit_unlimited w :
  device_memory_limit (manager w) = None → spill_to_device_limit w = (inr tt, w).
Proof. intros H. unfold spill_to_device_limit. munfold. by rewrite H. Qed.

End Moves.

Lemma mstep_limit l w w' :
  mstep l w w' → device_memory_limit (manager w') = device_memory_limit (manager w).
Proof. destruct 1; by subst. Qed.

Lemma muts_limit A w w' :
  muts A w w' → device_memory_limit (manager w') = device_memory_limit (manager w).
Proof.
  induction 1 as [|l w1 w2 w3 _ Hs _ IH]; [done|].
  rewrite IH. by eapply mstep_limit.
Qed.

Lemma muts_bind_inv {A B} P (m : M A) (f : A → M B) w :
  inv w → muts P w (after m w) →
  (∀ a w', inv w' → muts P w w' → w' = after m w → result m w = inr a →
           muts P w' (after (f a) w')) →
  muts P w (after (m ≫= f) w).
Proof.
  intros Hinv H1 H2. apply muts_bind; [done|]. intros a Ha.
  apply H2; [by eapply muts_inv|done..].
Qed.

Lemma lookup_address_range_Some `{Ext : External} p sz w b :
  lookup_address_range p sz w = Some b →
  b ∈ base_buffers (manager w) ∧ is_overlapping b p sz w = Some true.
Proof.
  unfold lookup_address_range. intros [Hin Hov]%find_some.
  split; [by apply list_elem_of_In|].
  destruct (is_overlapping b p sz w) as [[]|]; done.
Qed.

Lemma is_overlapping_true `{Ext : External} b p sz w :
  is_overlapping b p sz w = Some true →
  ∃ st, heap w !! b = Some st ∧ is_spilled_state st = false.
Proof.
  unfold is_overlapping. destruct (heap w !! b) as [st|]; simpl; [|done].
  intros [= Hov]. exists st. split; [done|].
  destruct (is_spilled_state st); [done|done].
Qed.

Section Pointers.

Context `{Ext : External}.

Lemma spill_limit_muts w :
  inv w →
  muts (spill_labels (device_memory_limit (manager w))) w (after spill_to_device_limit w).
Proof.
  intros Hinv. destruct (device_memory_limit (manager w)) as [lim|] eqn:Hlim.
  - eapply muts_weaken; [|by apply spill_to_device_limit_muts].
    intros l Hl. split; [done|by eexists].
  - unfold after. rewrite spill_to_device_limit_unlimited by done. apply muts_refl.
Qed.

Lemma monotonic_muts P w : P LTick → muts P w (after monotonic w).
Proof. intros HP. eapply muts_one; [done|]. by eapply ms_tick. Qed.

Lemma ptr_base_muts r w :
  inv w →
  muts (ptr_labels (device_memory_limit (manager w)) r) w (after (ptr_base r) w).
Proof.
  intros Hinv. unfold ptr_base.
  apply muts_bind_inv; [done| |].
  { eapply muts_weaken; [|by apply spill_limit_muts]. intros l Hl. by left. }
  intros [] w1 Hinv1 _ _ _.
  apply muts_bind_inv; [done| |].
  { eapply muts_weaken; [|by apply move_inplace_muts].
    intros l [[_ [=]]|[[->| ->] _]]; unfold ptr_labels; by auto 10. }
  intros [] w2 Hinv2 _ Hw2 Hmv.
  destruct (move_inplace_post _ _ _ Hmv) as (st & Hst & Hg). rewrite <- Hw2 in Hst.
  apply muts_bind_inv; [done|rewrite after_load; apply muts_refl|].
  intros st' w3 Hinv3 _ Hw3 Hl%load_Some. rewrite after_load in Hw3. subst w3.
  assert (st' = st) as -> by congruence.
  apply muts_bind_inv; [done| |].
  { eapply muts_one; [|by eapply ms_expose]. unfold ptr_labels; by auto 10. }
  intros [] w4 Hinv4 _ Hw4 _.
  apply muts_bind_inv; [done|apply monotonic_muts; unfold ptr_labels; by auto 10|].
  intros now w5 Hinv5 _ Hw5 _.
  apply muts_bind_inv; [done|rewrite after_load; apply muts_refl|].
  intros st5 w6 Hinv6 _ Hw6 Hl5%load_Some. rewrite after_load in Hw6. subst w6.
  apply muts_bind_inv; [done| |].
  { eapply muts_one; [|by eapply ms_touch]. unfold ptr_labels; by auto 10. }
  intros. apply muts_refl.
Qed.

Lemma ptr_muts b w :
  inv w →
  muts (ptr_labels (device_memory_limit (manager w)) (base_ref b)) w (after (ptr b) w).
Proof.
  intros Hinv. destruct b as [r|vd sz]; simpl; [by apply ptr_base_muts|].
  apply muts_bind; [by apply ptr_base_muts|]. intros. apply muts_refl.
Qed.

Lemma get_base_pure b w : after (get_base b) w = w.
Proof.
  destruct b as [r|vd sz]; simpl; [done|].
  unfold as_size_t. munfold. by destruct (_ || _).
Qed.

Lemma get_base_ref b w r off : result (get_base b) w = inr (r, off) → r = base_ref b.
Proof.
  destruct b as [r0|vd sz]; simpl.
  - by intros [= <- _].
  - unfold as_size_t. munfold. destruct (_ || _); simpl; [done|]. by intros [= <- _].
Qed.

Lemma ptr_raw_muts b v w :
  inv w → muts (pin_labels (base_ref b) v) w (after (ptr_raw b v) w).
Proof.
  intros Hinv. unfold ptr_raw.
  apply muts_bind_inv; [done|rewrite get_base_pure; apply muts_refl|].
  intros [r off] w1 _ _ Hw1 Hb. rewrite get_base_pure in Hw1. subst w1.
  apply get_base_ref in Hb as ->. set (r := base_ref b).
  apply muts_bind_inv; [done| |].
  { eapply muts_weaken; [|by apply move_inplace_muts].
    intros l [[_ [=]]|[[->| ->] _]]; unfold pin_labels; by auto 10. }
  intros [] w2 Hinv2 _ Hw2 Hmv.
  destruct (move_inplace_post _ _ _ Hmv) as (st & Hst & Hg). rewrite <- Hw2 in Hst.
  apply muts_bind_inv; [done|apply monotonic_muts; unfold pin_labels; by auto 10|].
  intros now w3 Hinv3 _ Hw3 _.
  assert (Hst3 : heap w3 !! r = Some st) by (by subst w3).
  apply muts_bind_inv; [done|rewrite after_load; apply muts_refl|].
  intros st' w4 Hinv4 _ Hw4 Hl%load_Some. rewrite after_load in Hw4. subst w4.
  assert (st' = st) as -> by congruence.
  apply muts_bind_inv; [done| |].
  { eapply muts_one; [|by eapply ms_touch]. unfold pin_labels; by auto 10. }
  intros [] w5 Hinv5 _ Hw5 _.
  assert (Hst5 : heap w5 !! r = Some (with_last_accessed st now)).
  { subst w5. simpl. apply list_lookup_insert_eq. by eapply lookup_lt_Some. }
  apply muts_bind; [|intros; apply muts_refl].
  unfold push_back. munfold.
  destruct (owners w5 !! v) as [tokens|] eqn:Hv; simpl; [|apply muts_refl].
  rewrite Hst5. simpl.
  eapply muts_one; [unfold pin_labels; by auto 10|].
  eapply ms_pin; eauto.
Qed.

Lemma memoryview_muts b w :
  inv w → muts (λ l, l = LSpill (base_ref b)) w (after (memoryview b) w).
Proof.
  intros Hinv. unfold memoryview.
  apply muts_bind_inv; [done|rewrite get_base_pure; apply muts_refl|].
  intros [r off] w1 _ _ Hw1 Hb. rewrite get_base_pure in Hw1. subst w1.
  apply get_base_ref in Hb as ->. set (r := base_ref b).
  apply muts_bind_inv; [done|rewrite after_load; apply muts_refl|].
  intros st w2 _ _ Hw2 _. rewrite after_load in Hw2. subst w2.
  destruct (spillable_state st).
  - apply muts_bind_inv; [done| |].
    { eapply muts_weaken; [|by apply move_inplace_muts].
      by intros l [[-> _]|[_ [=]]]. }
    intros [] w3 Hinv3 _ _ _.
    apply muts_bind; [rewrite after_load; apply muts_refl|].
    intros st3 _. rewrite after_load.
    destruct (pmemoryview (_ptr_desc st3)); [|apply muts_refl].
    apply muts_bind; [rewrite after_query; apply muts_refl|].
    intros. apply muts_refl.
  - destruct (negb _); [apply muts_refl|].
    apply muts_bind; [rewrite after_query; apply muts_refl|].
    intros sz _. rewrite after_query.
    apply muts_bind.
    + unfold bytearray. destruct (sz <? 0); apply muts_refl.
    + intros. apply muts_refl.
Qed.

End Pointers.

(** ** What a run of mutations keeps *)

Lemma object_le_refl P st : object_le P st st.
Proof. by split. Qed.

Lemma mstep_object l w w' r st :
  mstep l w w' → heap w !! r = Some st →
  ∃ st', heap w' !! r = Some st' ∧ object_le (l ≠ LExpose r) st st'.
Proof.
  intros Hs Hr.
  assert (Hlt : (r < length (heap w))%nat) by (by eapply lookup_lt_Some).
  destruct Hs as
    [r0 st0 mv w w' H0 Hsp Hsa Hlen ->|r0 st0 p w w' H0 Hsp ->|r0 st0 w w' H0 Hg ->
    |r0 st0 t w w' H0 ->|r0 v st0 tokens w w' H0 Hg Hv ->|st0 w w' Hok ->
    |r0 w w' H0 ->|d w w' ->|c w w' ->|v tokens w w' Hv ->|w w' ->]; simpl;
    try (by exists st; split; [|apply object_le_refl]);
    try (destruct (decide (r0 = r)) as [->|Hne];
         [rewrite list_lookup_insert_eq by done; simplify_eq;
          eexists; split; [done|]
         |rewrite list_lookup_insert_ne by done;
          by exists st; split; [|apply object_le_refl]]).
  - by split.
  - by split.
  - split; [done|]. split; [done|]. by intros [].
  - by split.
  - by split.
  - exists st. split; [by apply lookup_app_l_Some|apply object_le_refl].
  - rewrite foldr_release_lookup, Hr. simpl. eexists. split; [done|]. by split.
Qed.

Lemma muts_object A w w' r st :
  muts A w w' → heap w !! r = Some st →
  ∃ st', heap w' !! r = Some st' ∧ object_le (∀ l, A l → l ≠ LExpose r) st st'.
Proof.
  intros Hm. revert st. induction Hm as [|l w1 w2 w3 Hl Hs _ IH]; intros st Hr.
  { exists st. split; [done|apply object_le_refl]. }
  destruct (mstep_object _ _ _ _ _ Hs Hr) as (st2 & H2 & Hsz2 & Hmono2 & Heq2).
  destruct (IH _ H2) as (st3 & H3 & Hsz3 & Hmono3 & Heq3).
  exists st3. split; [done|]. split; [congruence|]. split; [auto|].
  intros HA. rewrite Heq3, Heq2; auto.
Qed.

Lemma mstep_frame l w w' r st :
  mstep l w w' → heap w !! r = Some st → keeps r (is_spilled_state st) l →
  heap w' !! r = Some st.
Proof.
  intros Hs Hr Hk.
  destruct Hs as
    [r0 st0 mv w w' H0 Hsp Hsa Hlen ->|r0 st0 p w w' H0 Hsp ->|r0 st0 w w' H0 Hg ->
    |r0 st0 t w w' H0 ->|r0 v st0 tokens w w' H0 Hg Hv ->|st0 w w' Hok ->
    |r0 w w' H0 ->|d w w' ->|c w w' ->|v tokens w w' Hv ->|w w' ->]; simpl in *;
    try done; try (by rewrite list_lookup_insert_ne).
  - destruct (decide (r0 = r)) as [->|Hne]; [|by rewrite list_lookup_insert_ne].
    simplify_eq. specialize (Hk eq_refl). congruence.
  - by apply lookup_app_l_Some.
Qed.

Lemma muts_frame A w w' r st :
  muts A w w' → (∀ l, A l → keeps r (is_spilled_state st) l) →
  heap w !! r = Some st → heap w' !! r = Some st.
Proof.
  intros Hm HA. induction Hm as [|l w1 w2 w3 Hl Hs _ IH]; [done|].
  intros Hr. apply IH. eapply mstep_frame; eauto.
Qed.

(** An owner vector only grows until it is released. *)
Lemma mstep_owners l w w' v tokens :
  mstep l w w' → l ≠ LRelease v → owners w !! v = Some tokens →
  ∃ more, owners w' !! v = Some (tokens ++ more).
Proof.
  intros Hs Hl Hv.
  assert (Hlt : (v < length (owners w))%nat) by (by eapply lookup_lt_Some).
  destruct Hs as
    [r0 st0 mv w w' H0 Hsp Hsa Hlen ->|r0 st0 p w w' H0 Hsp ->|r0 st0 w w' H0 Hg ->
    |r0 st0 t w w' H0 ->|r0 v0 st0 tokens0 w w' H0 Hg Hv0 ->|st0 w w' Hok ->
    |r0 w w' H0 ->|d w w' ->|c w w' ->|v0 tokens0 w w' Hv0 ->|w w' ->]; simpl;
    try (by exists []; rewrite app_nil_r).
  - destruct (decide (v0 = v)) as [->|Hne].
    + rewrite list_lookup_insert_eq by done. simplify_eq. by eexists.
    + rewrite list_lookup_insert_ne by done. exists []. by rewrite app_nil_r.
  - rewrite list_lookup_insert_ne by congruence. exists []. by rewrite app_nil_r.
  - exists []. rewrite app_nil_r. by apply lookup_app_l_Some.
Qed.

Lemma muts_owners A w w' v tokens :
  muts A w w' → (∀ l, A l → l ≠ LRelease v) → owners w !! v = Some tokens →
  ∃ more, owners w' !! v = Some (tokens ++ more).
Proof.
  intros Hm HA. revert tokens. induction Hm as [|l w1 w2 w3 Hl Hs _ IH]; intros tokens Hv.
  { exists []. by rewrite app_nil_r. }
  destruct (mstep_owners _ _ _ _ _ Hs (HA _ Hl) Hv) as (m1 & H1).
  destruct (IH _ H1) as (m2 & H2). exists (m1 ++ m2). by rewrite app_assoc.
Qed.

Lemma count_in_pos r tokens : r ∈ tokens → (1 ≤ count_in r tokens)%nat.
Proof.
  induction tokens as [|t tokens IH]; [by intros ?%elem_of_nil|].
  rewrite count_in_cons. intros [->|Hin]%elem_of_cons.
  - rewrite decide_True by done. lia.
  - specialize (IH Hin). lia.
Qed.

Lemma live_tokens_pos w v tokens r :
  owners w !! v = Some tokens → r ∈ tokens → (1 ≤ live_tokens w r)%nat.
Proof.
  intros Hv Hin%count_in_pos. unfold live_tokens.
  revert v Hv. induction (owners w) as [|ts os IH]; intros [|v] Hv; simplify_eq/=.
  - lia.
  - specialize (IH _ Hv). lia.
Qed.

Lemma result_bind {A B} (m : M A) (f : A → M B) w a :
  result m w = inr a → result (m ≫= f) w = result (f a) (after m w).
Proof. unfold result, after. rewrite run_bind. destruct (m w) as [[e|a'] w1]; simpl; congruence. Qed.

Lemma after_bind {A B} (m : M A) (f : A → M B) w a :
  result m w = inr a → after (m ≫= f) w = after (f a) (after m w).
Proof. unfold result, after. rewrite run_bind. destruct (m w) as [[e|a'] w1]; simpl; congruence. Qed.

Lemma run_eq {A} (m : M A) w : m w = (result m w, after m w).
Proof. unfold result, after. by destruct (m w). Qed.

Section Construction.

Context `{Ext : External}.

Lemma move_inplace_cpu_ok r st w :
  inv w → heap w !! r = Some st → spillable_state st = true →
  result (move_inplace (Base r) "cpu") w = inr tt.
Proof.
  intros Hinv Hr Hsp. destruct (inv_resident _ Hinv _ _ Hr) as [Hsz Hres].
  destruct (is_spilled_state st) eqn:Hs.
  - destruct Hres as [Hg|(Hc & _)]; [apply is_spilled_state_false in Hg; congruence|].
    unfold result. by rewrite <- Hc, (move_inplace_same _ _ _ Hr).
  - unfold result. by rewrite (move_inplace_spill _ _ _ Hr Hs Hsp Hsz).
Qed.

Lemma move_inplace_gpu_ok r st w :
  inv w → heap w !! r = Some st →
  result (move_inplace (Base r) "gpu") w = inr tt.
Proof.
  intros Hinv Hr. pose proof (inv_resident _ Hinv _ _ Hr) as Hres.
  destruct (is_spilled_state st) eqn:Hs.
  - destruct (move_inplace_unspill _ _ w Hr Hres Hs) as (mv & _ & _ & Hrun).
    unfold result. by rewrite Hrun.
  - apply is_spilled_state_false in Hs.
    unfold result. by rewrite <- Hs, (move_inplace_same _ _ _ Hr).
Qed.

Lemma spill_loop_ok limit candidates w :
  inv w → result (spill_loop limit candidates) w = inr tt.
Proof.
  revert w. induction candidates as [|r rest IH]; intros w Hinv; [done|].
  cbn [spill_loop]. rewrite (result_bind get _ w w) by done. change (after get w) with w.
  destruct (device_usage w <? limit); [done|].
  destruct (heap w !! r) as [st|] eqn:Hr.
  - destruct (_ && _) eqn:Hc.
    + apply andb_true_iff in Hc as [_ Hsp].
      rewrite (result_bind _ _ w tt) by (eapply move_inplace_cpu_ok; eauto).
      apply IH. eapply muts_inv; [by apply move_inplace_muts|done].
    + rewrite (result_bind _ _ w tt) by done. by apply IH.
  - rewrite (result_bind _ _ w tt) by done. by apply IH.
Qed.

Lemma spill_ok w : inv w → result spill_to_device_limit w = inr tt.
Proof.
  intros Hinv. unfold spill_to_device_limit.
  rewrite (result_bind get _ w w) by done. change (after get w) with w.
  destruct (device_memory_limit (manager w)); [by apply spill_loop_ok|done].
Qed.

Lemma ptr_base_ok r w :
  inv w → is_Some (heap w !! r) → ∃ p, result (ptr_base r) w = inr p.
Proof.
  intros Hinv [st Hr]. unfold ptr_base.
  rewrite (result_bind _ _ w tt) by (by apply spill_ok).
  pose proof (spill_limit_muts w Hinv) as Hm1.
  destruct (muts_object _ _ _ _ _ Hm1 Hr) as (st1 & H1 & _).
  pose proof (muts_inv _ _ _ Hm1 Hinv) as Hinv1.
  set (w1 := after spill_to_device_limit w) in *.
  pose proof (move_inplace_gpu_ok _ _ _ Hinv1 H1) as Hmv.
  rewrite (result_bind _ _ w1 tt) by done.
  destruct (move_inplace_post _ _ _ Hmv) as (st2 & H2 & Hg).
  set (w2 := after (move_inplace (Base r) "gpu") w1) in *.
  assert (Hlt : (r < length (heap w2))%nat) by (by eapply lookup_lt_Some).
  rewrite (result_bind (load r) _ w2 st2) by (munfold; by rewrite H2).
  rewrite after_load.
  rewrite (result_bind (store r _) _ w2 tt) by done.
  rewrite (result_bind monotonic _ _ (clock w2)) by done.
  erewrite (result_bind (load r)).
  2:{ munfold. simpl. rewrite list_lookup_insert_eq by done. done. }
  rewrite after_load.
  rewrite (result_bind (store r _) _ _ tt) by done.
  by eexists.
Qed.

(** *** [__init__] *)

Lemma init_unfold data e :
  __init__ data e
  = (now ← monotonic; st ← init_state data e now; self ← new_object st;
     init_manager st self).
Proof. done. Qed.

Lemma init_manager_muts st self n w :
  inv w → (self < length (heap w))%nat →
  (∀ r, r ∈ base_buffers (manager w) → (r < n)%nat) →
  muts (init_labels (device_memory_limit (manager w)) n) w (after (init_manager st self) w).
Proof.
  intros Hinv Hself Hreg. unfold init_manager.
  apply muts_bind_inv; [done|rewrite after_query; apply muts_refl|].
  intros base w1 _ _ Hw1 Hb%query_Some. rewrite after_query in Hw1. subst w1.
  simplify_eq.
  apply muts_bind_inv; [done| |].
  { destruct (lookup_address_range _ _ w) as [b|] eqn:Hb.
    - apply lookup_address_range_Some in Hb as [Hin _].
      apply muts_bind; [|intros; apply muts_refl].
      eapply muts_weaken; [|by apply (ptr_muts (Base b))].
      intros l [Hl|Hl]; [by left|]. simpl in Hl. unfold init_labels.
      destruct Hl as [->|[->|[->|[->| ->]]]]; eauto 10 using Hreg.
    - destruct (negb (_exposed st)); [|apply muts_refl].
      unfold manager_add. munfold. case_bool_decide; [apply muts_refl|].
      eapply muts_one; [|by eapply ms_register]. unfold init_labels. eauto 10. }
  intros [] w2 Hinv2 Hm2 _ _.
  apply muts_bind; [|intros; apply muts_refl].
  eapply muts_weaken; [|by apply spill_limit_muts].
  intros l Hl. left. by rewrite <- (muts_limit _ _ _ Hm2).
Qed.

Lemma init_manager_ok st self w :
  inv w → (self < length (heap w))%nat →
  result (init_manager st self) w = inr (Base self).
Proof.
  intros Hinv Hself. unfold init_manager.
  erewrite (result_bind (query _)) by (munfold; done).
  rewrite after_query.
  set (step := match lookup_address_range (_ptr st) (_size st) w with
               | Some b => ptr (Base b);; mret tt
               | None => if negb (_exposed st) then manager_add self else mret tt
               end).
  assert (Hstep : result step w = inr tt ∧ inv (after step w)).
  { unfold step. destruct (lookup_address_range _ _ w) as [b|] eqn:Hb.
    - apply lookup_address_range_Some in Hb as [_ Hov].
      apply is_overlapping_true in Hov as (stb & Hstb & _).
      destruct (ptr_base_ok b w Hinv) as [p Hp]; [by eexists|].
      split.
      + by rewrite (result_bind _ _ w p).
      + rewrite (after_bind _ _ w p) by done.
        eapply muts_inv; [by apply (ptr_muts (Base b))|done].
    - destruct (negb (_exposed st)); [|done]. split; [done|].
      unfold manager_add. munfold. simpl. case_bool_decide; [done|].
      eapply mstep_inv; [|done]. by eapply ms_register. }
  destruct Hstep as [Hres Hinv2].
  rewrite (result_bind _ _ w tt) by done.
  by rewrite (result_bind _ _ _ tt) by (by apply spill_ok).
Qed.

Lemma set_device_same w : set_device (device w) w = w.
Proof. by destruct w. Qed.

Lemma init_state_spec data e now w :
  match init_state data e now w with
  | (inr st, w') => fresh_ok st ∧ ∃ d, w' = set_device d w
  | (inl _, w') => w' = w
  end.
Proof.
  assert (Hgpu : ∀ ex p n,
            fresh_ok (BaseState 1 ex now (PtrDesc "gpu" None) p (Z.of_nat n) (Some p))).
  { intros. split; [done|]. apply resident_ok_gpu; simpl; [lia|done]. }
  destruct data as [b|p n|p n|content c]; simpl; [done| | |].
  - split; [apply Hgpu|]. exists (device w). by rewrite set_device_same.
  - split; [apply Hgpu|]. exists (device w). by rewrite set_device_same.
  - destruct e; simpl.
    + destruct (get_ptr_and_size content c) as [err|array]; [done|].
      unfold to_device. munfold. simpl. split; [apply Hgpu|]. by eexists.
    + destruct c; simpl; [|done]. split.
      * split; [done|]. split; simpl; [lia|]. right. eauto 10.
      * exists (device w). by rewrite set_device_same.
Qed.

(** The run of [__init__] once the state of the new object is known. *)
Lemma init_run data e w st w2 :
  inv w →
  init_state data e (clock w) (set_clock (S (clock w)) w) = (inr st, w2) →
  let n := length (heap w) in
  let w3 := set_heap (heap w2 ++ [st]) w2 in
  __init__ data e w = (inr (Base n), after (init_manager st n) w3)
  ∧ inv w3 ∧ heap w3 !! n = Some st
  ∧ device_memory_limit (manager w3) = device_memory_limit (manager w)
  ∧ muts (init_labels (device_memory_limit (manager w)) n) w w3
  ∧ muts (init_labels (device_memory_limit (manager w)) n) w3 (after (init_manager st n) w3).
Proof.
  intros Hinv Hst n w3.
  pose proof (init_state_spec data e (clock w) (set_clock (S (clock w)) w)) as Hspec.
  rewrite Hst in Hspec. destruct Hspec as [Hok [d ->]].
  assert (Hm : muts (init_labels (device_memory_limit (manager w)) n) w w3).
  { eapply muts_step; [|by eapply (ms_tick (S (clock w)))|]; [unfold init_labels; by auto 10|].
    eapply muts_step; [|by eapply (ms_device d)|]; [unfold init_labels; by auto 10|].
    eapply muts_one; [unfold init_labels; by auto 10|]. by eapply ms_new. }
  pose proof (muts_inv _ _ _ Hm Hinv) as Hinv3.
  assert (Hn : heap w3 !! n = Some st).
  { subst w3 n. simpl. by apply list_lookup_middle. }
  assert (Hlt : (n < length (heap w3))%nat) by (by eapply lookup_lt_Some).
  split; [|split; [done|split; [done|split; [done|split; [done|]]]]].
  - rewrite init_unfold, run_eq. f_equal.
    + rewrite (result_bind monotonic _ w (clock w)) by done.
      change (after monotonic w) with (set_clock (S (clock w)) w).
      rewrite (result_bind _ _ _ st) by (unfold result; by rewrite Hst).
      unfold after at 1. rewrite Hst. simpl.
      rewrite (result_bind (new_object st) _ _ n) by done.
      by apply init_manager_ok.
    + rewrite (after_bind monotonic _ w (clock w)) by done.
      change (after monotonic w) with (set_clock (S (clock w)) w).
      rewrite (after_bind _ _ _ st) by (unfold result; by rewrite Hst).
      unfold after at 2. rewrite Hst. simpl.
      by rewrite (after_bind (new_object st) _ _ n) by done.
  - apply (init_manager_muts st n n w3); [done|done|].
    intros r Hr. by apply (inv_registered _ Hinv).
Qed.

Lemma init_muts data e w :
  inv w →
  muts (init_labels (device_memory_limit (manager w)) (length (heap w))) w
    (after (__init__ data e) w).
Proof.
  intros Hinv.
  destruct (init_state data e (clock w) (set_clock (S (clock w)) w)) as [[err|st] w2] eqn:Hst.
  - pose proof (init_state_spec data e (clock w) (set_clock (S (clock w)) w)) as Hspec.
    rewrite Hst in Hspec. subst w2.
    rewrite init_unfold, (after_bind monotonic _ w (clock w)) by done.
    change (after monotonic w) with (set_clock (S (clock w)) w).
    unfold after. rewrite run_bind, Hst. simpl.
    eapply (muts_one _ LTick); [unfold init_labels; by auto 10|]. by eapply ms_tick.
  - destruct (init_run _ _ _ _ _ Hinv Hst) as (Hrun & _ & _ & _ & Hm1 & Hm2).
    unfold after at 1. rewrite Hrun. simpl. by eapply muts_trans.
Qed.

End Construction.

(** ** Programs *)

Section Programs.

Context `{Ext : External}.

Lemma getitem_pure b key w : after (__getitem__ b key) w = w.
Proof.
  unfold __getitem__, slice_indices, create_view. munfold.
  destruct (size b w) as [len|]; simpl; [|done].
  destruct (len <? 0); simpl; [done|].
  destruct (default 1 (slice_step key) =? 0); simpl; [done|].
  destruct (negb _); simpl; [done|].
  destruct (_ <? 0); simpl; [done|]. by destruct b.
Qed.

Lemma serialize_muts b w :
  inv w → muts (λ l, l = LSpill (base_ref b)) w (after (serialize b) w).
Proof.
  intros Hinv. unfold serialize.
  apply muts_bind_inv; [done|rewrite after_query; apply muts_refl|].
  intros spilled w1 _ _ Hw1 _. rewrite after_query in Hw1. subst w1.
  destruct spilled; [|apply muts_refl].
  apply muts_bind; [by apply memoryview_muts|]. intros. apply muts_refl.
Qed.

Lemma deserialize_muts h frames w :
  inv w →
  muts (init_labels (device_memory_limit (manager w)) (length (heap w))) w
    (after (deserialize h frames) w).
Proof.
  intros Hinv. unfold deserialize.
  destruct (negb _); [apply muts_refl|].
  destruct frames as [|frame [|? ?]]; [apply muts_refl| |apply muts_refl].
  destruct frame; try (by apply init_muts). apply muts_refl.
Qed.

Lemma release_owners_muts v w :
  muts (λ l, l = LRelease v) w (after (release_owners v) w).
Proof.
  unfold release_owners. munfold. simpl.
  destruct (owners w !! v) as [tokens|] eqn:Hv; [|apply muts_refl].
  eapply muts_one; [done|]. by eapply ms_release.
Qed.

Lemma exec_op_muts o w : inv w → muts (op_labels o) w (exec_op o w).
Proof.
  intros Hinv.
  destruct o as [data e|b target|b|b v| |v|b|b key|b|h frames|]; simpl.
  - eapply muts_weaken; [|by apply init_muts].
    intros l Hl. unfold init_labels, spill_labels, is_spill in Hl.
    destruct l; simpl; try done; exfalso; firstorder discriminate.
  - destruct b as [r|vd sz]; [|apply muts_refl].
    eapply muts_weaken; [|by apply move_inplace_muts].
    intros l Hl. unfold move_labels in Hl. destruct l; simpl; try done; exfalso; firstorder discriminate.
  - eapply muts_weaken; [|by apply ptr_muts].
    intros l Hl. unfold ptr_labels, spill_labels, is_spill in Hl.
    destruct l; simpl; try done; exfalso; firstorder discriminate.
  - eapply muts_weaken; [|by apply ptr_raw_muts].
    intros l Hl. unfold pin_labels in Hl. destruct l; simpl; try done; exfalso; firstorder discriminate.
  - eapply (muts_one _ LNewOwners); [done|]. by eapply ms_new_owners.
  - eapply muts_weaken; [|by apply release_owners_muts].
    by intros l ->.
  - eapply muts_weaken; [|by apply memoryview_muts]. by intros l ->.
  - rewrite getitem_pure. apply muts_refl.
  - eapply muts_weaken; [|by apply serialize_muts]. by intros l ->.
  - eapply muts_weaken; [|by apply deserialize_muts].
    intros l Hl. unfold init_labels, spill_labels, is_spill in Hl.
    destruct l; simpl; try done; exfalso; firstorder discriminate.
  - eapply muts_weaken; [|by apply spill_to_device_limit_muts].
    intros l [r ->]. done.
Qed.

Lemma exec_nil w : exec [] w = w.
Proof. done. Qed.

Lemma exec_cons o ops w : exec (o :: ops) w = exec ops (exec_op o w).
Proof. done. Qed.

Lemma exec_app ops1 ops2 w : exec (ops1 ++ ops2) w = exec ops2 (exec ops1 w).
Proof. unfold exec. by rewrite foldl_app. Qed.

Lemma exec_muts ops w :
  inv w → muts (λ l, ∃ o, o ∈ ops ∧ op_labels o l) w (exec ops w).
Proof.
  revert w. induction ops as [|o ops IH]; intros w Hinv; [apply muts_refl|].
  rewrite exec_cons. eapply muts_trans.
  - eapply muts_weaken; [|by apply exec_op_muts].
    intros l Hl. exists o. split; [apply elem_of_cons; by left|done].
  - eapply muts_weaken; [|apply IH].
    + intros l (o' & Hin & Hl). exists o'. split; [apply elem_of_cons; by right|done].
    + eapply muts_inv; [by apply exec_op_muts|done].
Qed.

Lemma initial_world_inv d limit : inv (initial_world d limit).
Proof.
  split; simpl.
  - intros r st Hr. by rewrite lookup_nil in Hr.
  - intros r st Hr. by rewrite lookup_nil in Hr.
  - intros v tokens t Hv. by rewrite lookup_nil in Hv.
  - intros r Hr. by apply elem_of_nil in Hr.
Qed.

Lemma reachable_inv w : reachable w → inv w.
Proof.
  intros (d & limit & ops & ->).
  eapply muts_inv; [apply exec_muts|]; apply initial_world_inv.
Qed.

Lemma reachable_exec ops w : reachable w → reachable (exec ops w).
Proof.
  intros (d & limit & ops0 & ->). exists d, limit, (ops0 ++ ops).
  by rewrite exec_app.
Qed.

End Programs.

Section Invariants.

Context `{Ext : External}.

Lemma exposed_base_ref b w : exposed b w = _exposed <$> heap w !! base_ref b.
Proof. by destruct b. Qed.
Lemma is_spilled_base_ref b w : is_spilled b w = is_spilled_state <$> heap w !! base_ref b.
Proof. by destruct b. Qed.
Lemma spillable_base_ref b w : spillable b w = spillable_state <$> heap w !! base_ref b.
Proof. by destruct b. Qed.
Lemma expose_counter_base_ref b w :
  expose_counter b w = _expose_counter <$> heap w !! base_ref b.
Proof. by destruct b. Qed.

(** C1: in every reachable world, hence right after any call, and for every
    buffer, base or view: [spillable] is true exactly when the base is not
    exposed and its pin count is zero, where the pin count, the use count of
    the expose counter minus one, is the number of live pin tokens. *)
Theorem spillable_iff_unexposed_and_unpinned w b :
  reachable w → is_Some (heap w !! base_ref b) →
  ∃ e c, exposed b w = Some e ∧ pin_count b w = Some c
         ∧ c = Z.of_nat (live_tokens w (base_ref b))
         ∧ spillable b w = Some (negb e && (c =? 0))
         ∧ (spillable b w = Some true ↔ e = false ∧ c = 0).
Proof.
  intros Hinv%reachable_inv [st Hr].
  exists (_exposed st), (Z.of_nat (_expose_counter st) - 1).
  unfold pin_count.
  rewrite exposed_base_ref, spillable_base_ref, expose_counter_base_ref, Hr. simpl.
  pose proof (inv_counter _ Hinv _ _ Hr) as Hc.
  assert (Heq : spillable_state st
                = negb (_exposed st) && (Z.of_nat (_expose_counter st) - 1 =? 0)).
  { unfold spillable_state. f_equal.
    destruct (Nat.eqb_spec (_expose_counter st) 1), (Z.eqb_spec (Z.of_nat (_expose_counter st) - 1) 0);
      try done; lia. }
  split; [done|]. split; [done|]. split; [lia|]. split; [by rewrite Heq|].
  rewrite Heq. split.
  - intros [= [He Hz]%andb_true_iff]. apply negb_true_iff in He. split; [done|lia].
  - intros [-> ->]. done.
Qed.

(** C2: exposure is a latch: once [exposed] is true for a buffer, it is true
    after every further sequence of calls. *)
Theorem exposed_never_reset w ops b :
  reachable w → exposed b w = Some true → exposed b (exec ops w) = Some true.
Proof.
  intros Hinv%reachable_inv. rewrite !exposed_base_ref.
  destruct (heap w !! base_ref b) as [st|] eqn:Hr; simpl; [|done]. intros [= He].
  destruct (muts_object _ _ _ _ _ (exec_muts ops w Hinv) Hr) as (st' & Hr' & _ & Hmono & _).
  rewrite Hr'. simpl. by rewrite Hmono.
Qed.

(** C10: in every reachable world an exposed buffer is on the device. *)
Theorem exposed_implies_device_resident w b :
  reachable w → exposed b w = Some true → is_spilled b w = Some false.
Proof.
  intros Hinv%reachable_inv. rewrite exposed_base_ref, is_spilled_base_ref.
  destruct (heap w !! base_ref b) as [st|] eqn:Hr; simpl; [|done]. intros [= He].
  destruct (inv_resident _ Hinv _ _ Hr) as [_ [Hg|(_ & Hsp & _)]].
  - by apply is_spilled_state_false in Hg as ->.
  - apply spillable_state_true in Hsp as [? _]. congruence.
Qed.

(** C3: on a base buffer that is not spillable, [move_inplace] to a target
    other than the current residency raises the unspillable error and leaves
    the world, hence residency, contents, size and access time, as it was. *)
Theorem move_inplace_unspillable_raises w r st target :
  heap w !! r = Some st → spillable (Base r) w = Some false →
  ptype (_ptr_desc st) ≠ target →
  ∃ e, Unspillable e ∧ move_inplace (Base r) target w = (inl e, w)
       ∧ let w' := after (move_inplace (Base r) target) w in
         is_spilled (Base r) w' = is_spilled (Base r) w
         ∧ contents (Base r) w' = contents (Base r) w
         ∧ size (Base r) w' = size (Base r) w
         ∧ last_accessed (Base r) w' = last_accessed (Base r) w.
Proof.
  intros Hr Hsp Hne. simpl in Hsp. rewrite Hr in Hsp. simpl in Hsp.
  injection Hsp as Hsp.
  assert (Hrun : move_inplace (Base r) target w = (inl (ValueError msg_unspillable), w)).
  { unfold move_inplace. munfold. rewrite Hr. simpl.
    apply String.eqb_neq in Hne. by rewrite Hne, Hsp. }
  exists (ValueError msg_unspillable). split; [done|]. split; [done|].
  unfold after. by rewrite Hrun.
Qed.

(** C5: a view made by [create_view] from a buffer at an offset answers
    [exposed] and [is_spilled] as that buffer does, in every world, and its
    [ptr] is the [ptr] of that buffer plus the offset; for a base buffer
    this is the resolved address of the base plus the offset of the view. *)
Theorem view_delegates_to_base w0 w0' b sz o v :
  create_view b sz o w0 = (inr v, w0') →
  base_ref v = base_ref b ∧ view_offset v = view_offset b + o
  ∧ ∀ w, exposed v w = exposed b w
         ∧ is_spilled v w = is_spilled b w
         ∧ (∀ p w', ptr b w = (inr p, w') → ptr v w = (inr (p + o), w'))
         ∧ (∀ e w', ptr b w = (inl e, w') → ptr v w = (inl e, w')).
Proof.
  unfold create_view. munfold. destruct (sz <? 0); simpl; [done|].
  destruct b as [r|vd bsz]; simpl; intros [= <- _].
  - split; [done|]. split; [done|]. intros w. split; [done|]. split; [done|].
    simpl. munfold. split; intros x w' ->; simpl; [|done]. by rewrite Z.add_0_l.
  - split; [done|]. split; [done|]. intros w. split; [done|]. split; [done|].
    simpl. munfold. destruct (ptr_base (vd_base vd) w) as [[e|p0] w1]; simpl.
    + split; [by intros x w' [=]|]. by intros x w' [= <- <-].
    + split; [|by intros x w' [=]]. intros x w' [= <- <-]. by rewrite Z.add_assoc.
Qed.

(** C6: slicing a view flattens: on a base of 1024 bytes, the slice
    [100:500] and then the slice [50:150] of it give a view on the base
    itself at offset 150 with size 100. *)
Theorem slice_of_slice_flattens w a st :
  heap w !! a = Some st → _size st = 1024 →
  ∃ v, __getitem__ (Base a) (Slice (Some 100) (Some 500) None) w = (inr v, w)
       ∧ __getitem__ v (Slice (Some 50) (Some 150) None) w
         = (inr (View (ViewDesc a 150) 100), w).
Proof.
  intros Hr Hsz. exists (View (ViewDesc a 100) 400).
  unfold __getitem__, slice_indices, create_view. munfold. simpl.
  rewrite Hr. simpl. rewrite Hsz. done.
Qed.

End Invariants.

(** The equivalence on a view of a pinned buffer. *)
Lemma spillable_iff_unexposed_and_unpinned_witness :
  ∃ e c, exposed (View (ViewDesc 0 1) 2) world_pinned = Some e
         ∧ pin_count (View (ViewDesc 0 1) 2) world_pinned = Some c
         ∧ c = Z.of_nat (live_tokens world_pinned 0)
         ∧ spillable (View (ViewDesc 0 1) 2) world_pinned = Some (negb e && (c =? 0))
         ∧ (spillable (View (ViewDesc 0 1) 2) world_pinned = Some true ↔ e = false ∧ c = 0).
Proof.
  apply (spillable_iff_unexposed_and_unpinned (Ext := example_external)).
  - by eexists _, _, _.
  - vm_compute. by eexists.
Defined.

Lemma dev_read_take d p n sz :
  (sz ≤ n)%nat → take sz (dev_read d p n) = dev_read d p sz.
Proof.
  revert p n. induction sz as [|sz IH]; intros p [|n] Hle; simpl; try done; [lia|].
  rewrite IH by lia. done.
Qed.

Lemma dev_read_sub d p n off sz :
  (off + sz ≤ n)%nat →
  take sz (drop off (dev_read d p n)) = dev_read d (p + Z.of_nat off) sz.
Proof.
  revert p n. induction off as [|off IH]; intros p n Hle.
  - rewrite drop_0, Z.add_0_r. by apply dev_read_take.
  - destruct n as [|n]; [lia|]. simpl. rewrite IH by lia. f_equal. lia.
Qed.

Section Pinning.

Context `{Ext : External}.

Lemma get_base_in_bounds w b :
  in_bounds w b → get_base b w = (inr (base_ref b, view_offset b), w).
Proof.
  destruct b as [r|vd sz]; simpl; [done|].
  intros (st & _ & [Hlo Hhi] & _). unfold as_size_t. munfold.
  destruct (Z.ltb_spec (vd_offset vd) 0); [lia|].
  destruct (Z.leb_spec (2 ^ 64) (vd_offset vd)); [lia|]. done.
Qed.

Lemma in_bounds_size w b st :
  inv w → in_bounds w b → heap w !! base_ref b = Some st →
  ∃ sz, size b w = Some sz ∧ 0 ≤ view_offset b ∧ 0 ≤ sz
        ∧ view_offset b + sz ≤ _size st.
Proof.
  intros Hinv Hb Hr. destruct (inv_resident _ Hinv _ _ Hr) as [Hsz _].
  destruct b as [r|vd sz]; simpl in *.
  - rewrite Hr. simpl. exists (_size st). repeat split; lia.
  - destruct Hb as (st' & Hr' & [Hlo Hhi] & Hs & Hle). simplify_eq.
    exists sz. repeat split; lia.
Qed.

(** C9: [memoryview] of a buffer whose base is not spillable changes
    nothing, neither residency nor address nor device memory, and returns a
    host copy of the bytes of the buffer read from the device. *)
Theorem memoryview_of_unspillable_copies w b :
  reachable w → in_bounds w b → spillable b w = Some false →
  ∃ st sz bs,
    heap w !! base_ref b = Some st ∧ size b w = Some sz
    ∧ memoryview b w = (inr bs, w)
    ∧ bs = dev_read (device w) (_ptr st + view_offset b) (Z.to_nat sz)
    ∧ contents b w = Some bs
    ∧ let w' := after (memoryview b) w in
      is_spilled b w' = Some false ∧ address b w' = address b w
      ∧ device w' = device w.
Proof.
  intros Hinv%reachable_inv Hb. rewrite spillable_base_ref.
  destruct (heap w !! base_ref b) as [st|] eqn:Hr; simpl; [|done]. intros [= Hsp].
  destruct (in_bounds_size _ _ _ Hinv Hb Hr) as (sz & Hsize & Ho & Hs & Hle).
  assert (Hg : ptype (_ptr_desc st) = "gpu").
  { destruct (inv_resident _ Hinv _ _ Hr) as [_ [Hg|(_ & Hsp' & _)]]; [done|congruence]. }
  assert (Hrun : memoryview b w
                 = (inr (dev_read (device w) (_ptr st + view_offset b) (Z.to_nat sz)), w)).
  { unfold memoryview. rewrite run_bind, (get_base_in_bounds _ _ Hb).
    unfold bytearray, copy_ptr_to_host. munfold. rewrite Hr. cbn beta iota.
    rewrite Hsp, Hg, String.eqb_refl. cbn [negb]. cbn beta iota.
    rewrite Hsize. cbn beta iota.
    destruct (Z.ltb_spec sz 0); [lia|]. cbn beta iota. by rewrite length_replicate. }
  exists st, sz, (dev_read (device w) (_ptr st + view_offset b) (Z.to_nat sz)).
  split; [done|]. split; [done|]. split; [done|]. split; [done|]. split.
  - assert (Hns : is_spilled_state st = false) by (by apply is_spilled_state_false).
    destruct b as [r|vd vsz]; simpl in *.
    + rewrite Hr. simpl. unfold base_contents. rewrite Hns, Z.add_0_r.
      rewrite Hr in Hsize. by simplify_eq/=.
    + rewrite Hr. simpl. unfold base_contents. rewrite Hns. simplify_eq.
      rewrite dev_read_sub by lia. by rewrite Z2Nat.id by lia.
  - unfold after. rewrite Hrun. simpl. split; [|done].
    rewrite is_spilled_base_ref, Hr. simpl. f_equal. by apply is_spilled_state_false.
Qed.

(** The run of [move_inplace] to the device in a reachable world. *)
Lemma move_inplace_gpu_run r st w :
  inv w → heap w !! r = Some st →
  ∃ st2 w2, move_inplace (Base r) "gpu" w = (inr tt, w2)
            ∧ heap w2 !! r = Some st2 ∧ ptype (_ptr_desc st2) = "gpu"
            ∧ _exposed st2 = _exposed st
            ∧ _expose_counter st2 = _expose_counter st
            ∧ owners w2 = owners w ∧ clock w2 = clock w.
Proof.
  intros Hinv Hr. pose proof (inv_resident _ Hinv _ _ Hr) as Hres.
  assert (Hlt : (r < length (heap w))%nat) by (by eapply lookup_lt_Some).
  destruct (is_spilled_state st) eqn:Hs.
  - destruct (move_inplace_unspill _ _ w Hr Hres Hs) as (mv & _ & _ & Hrun).
    eexists _, _. split; [exact Hrun|]. simpl.
    rewrite list_lookup_insert_eq by done. done.
  - apply is_spilled_state_false in Hs.
    exists st, w. rewrite <- Hs at 1. by rewrite (move_inplace_same _ _ _ Hr).
Qed.

(** The run of [ptr_raw]. *)
Lemma ptr_raw_run w b v tokens st :
  inv w → in_bounds w b → owners w !! v = Some tokens →
  heap w !! base_ref b = Some st →
  ∃ p st' w',
    ptr_raw b v w = (inr p, w')
    ∧ heap w' !! base_ref b = Some st'
    ∧ ptype (_ptr_desc st') = "gpu" ∧ _exposed st' = _exposed st
    ∧ _expose_counter st' = S (_expose_counter st)
    ∧ owners w' !! v = Some (tokens ++ [base_ref b]).
Proof.
  intros Hinv Hb Hv Hr.
  destruct (move_inplace_gpu_run _ _ _ Hinv Hr)
    as (st2 & w2 & Hmv & H2 & Hg & He & Hc & Ho & Hck).
  assert (Hlt : (base_ref b < length (heap w2))%nat) by (by eapply lookup_lt_Some).
  assert (Hlv : (v < length (owners w))%nat) by (by eapply lookup_lt_Some).
  eexists _, _, _. split.
  { unfold ptr_raw. rewrite run_bind, (get_base_in_bounds _ _ Hb). cbn beta iota.
    rewrite run_bind, Hmv. unfold push_back. munfold. simpl.
    rewrite H2. simpl. rewrite Ho, Hv. simpl.
    rewrite list_lookup_insert_eq by done. simpl. reflexivity. }
  simpl. rewrite list_insert_insert_eq.
  rewrite !list_lookup_insert_eq by (done || by rewrite Ho).
  repeat split; simpl; congruence.
Qed.

Lemma live_token_blocks_spilling w v tokens r st :
  inv w → owners w !! v = Some tokens → r ∈ tokens → heap w !! r = Some st →
  spillable_state st = false.
Proof.
  intros Hinv Hv Hin Hr. pose proof (live_tokens_pos _ _ _ _ Hv Hin) as Hpos.
  pose proof (inv_counter _ Hinv _ _ Hr) as Hc.
  unfold spillable_state. destruct (Nat.eqb_spec (_expose_counter st) 1); [lia|].
  apply andb_false_r.
Qed.

(** C4: [ptr_raw] puts the base on the device and adds a pin token to the
    owner vector; from then on [spillable] is false for as long as the
    vector is not released, while [exposed] stays false through every call
    that does not expose; once no token of the base is alive the pin count is
    zero and the base is spillable again. *)
Theorem ptr_raw_pins_without_exposing w b v tokens :
  reachable w → in_bounds w b → owners w !! v = Some tokens →
  exposed b w = Some false →
  let w' := after (ptr_raw b v) w in
  (∃ p, result (ptr_raw b v) w = inr p)
  ∧ is_spilled b w' = Some false
  ∧ spillable b w' = Some false
  ∧ exposed b w' = Some false
  ∧ owners w' !! v = Some (tokens ++ [base_ref b])
  ∧ (∀ ops, (∀ o, o ∈ ops → o ≠ OpReleaseOwners v) →
            spillable b (exec ops w') = Some false)
  ∧ (∀ ops, (∀ o, o ∈ ops → ¬ exposing o) →
            exposed b (exec ops w') = Some false
            ∧ (live_tokens (exec ops w') (base_ref b) = 0%nat →
               pin_count b (exec ops w') = Some 0
               ∧ spillable b (exec ops w') = Some true))
  ∧ (live_tokens w (base_ref b) = 0%nat →
     spillable b (exec [OpReleaseOwners v] w') = Some true).
Proof.
  intros Hinv%reachable_inv Hb Hv. rewrite exposed_base_ref.
  destruct (heap w !! base_ref b) as [st|] eqn:Hr; simpl; [|done]. intros [= He].
  destruct (ptr_raw_run _ _ _ _ _ Hinv Hb Hv Hr)
    as (p & st' & w1 & Hrun & Hr' & Hg & He' & Hc' & Hv').
  pose proof (muts_inv _ _ _ (ptr_raw_muts b v w Hinv) Hinv) as Hinv'.
  unfold after, result in *. rewrite Hrun in *. simpl in *.
  assert (Hexp : ∀ ops, (∀ o, o ∈ ops → ¬ exposing o) →
            ∃ st2, heap (exec ops w1) !! base_ref b = Some st2 ∧ _exposed st2 = false).
  { intros ops Hops.
    destruct (muts_object _ _ _ _ _ (exec_muts ops w1 Hinv') Hr')
      as (st2 & H2 & _ & _ & Hsame).
    exists st2. split; [done|]. rewrite Hsame; [congruence|].
    intros l (o & Hin & Hl) ->. by apply (Hops o Hin). }
  assert (Hfree : ∀ ops, (∀ o, o ∈ ops → ¬ exposing o) →
            live_tokens (exec ops w1) (base_ref b) = 0%nat →
            pin_count b (exec ops w1) = Some 0
            ∧ spillable b (exec ops w1) = Some true).
  { intros ops Hops Hlive. destruct (Hexp ops Hops) as (st2 & H2 & He2).
    pose proof (muts_inv _ _ _ (exec_muts ops w1 Hinv') Hinv') as Hinv2.
    pose proof (inv_counter _ Hinv2 _ _ H2) as Hc2. rewrite Hlive in Hc2.
    unfold pin_count. rewrite expose_counter_base_ref, spillable_base_ref, H2. simpl.
    rewrite Hc2. split; [done|]. f_equal. apply spillable_state_true. done. }
  split; [by eexists|].
  split; [rewrite is_spilled_base_ref, Hr'; simpl; f_equal; by apply is_spilled_state_false|].
  split.
  { rewrite spillable_base_ref, Hr'. simpl. f_equal.
    eapply live_token_blocks_spilling; eauto. apply elem_of_app. right. by left. }
  split; [rewrite exposed_base_ref, Hr'; simpl; congruence|].
  split; [done|]. split; [|split].
  - intros ops Hops.
    pose proof (exec_muts ops w1 Hinv') as Hm.
    assert (Hnr : ∀ l, (∃ o, o ∈ ops ∧ op_labels o l) → l ≠ LRelease v).
    { intros l (o & Hin & Hl) ->. simpl in Hl. by apply (Hops o Hin). }
    destruct (muts_owners _ _ _ _ _ Hm Hnr Hv') as (more & Hv2).
    destruct (muts_object _ _ _ _ _ Hm Hr') as (st2 & H2 & _).
    rewrite spillable_base_ref, H2. simpl. f_equal.
    eapply (live_token_blocks_spilling (exec ops w1) v
              ((tokens ++ [base_ref b]) ++ more)); [by eapply muts_inv|done| |done].
    apply elem_of_app. left. apply elem_of_app. right. by left.
  - intros ops Hops. split; [|by apply Hfree].
    destruct (Hexp ops Hops) as (st2 & H2 & He2).
    by rewrite exposed_base_ref, H2; simpl; f_equal.
  - intros Hlive. refine (proj2 (Hfree [OpReleaseOwners v] _ _)).
    + intros o ->%list_elem_of_singleton. by intros [].
    + change (exec [OpReleaseOwners v] w1) with (after (release_owners v) w1).
      unfold release_owners. munfold. simpl. rewrite Hv'.
      pose proof (live_tokens_insert w1 v _ [] (base_ref b) Hv') as Hl.
      rewrite count_in_snoc, decide_True in Hl by done.
      pose proof (inv_counter _ Hinv' _ _ Hr') as Hc1.
      pose proof (inv_counter _ Hinv _ _ Hr) as Hc0.
      change (count_in (base_ref b) []) with 0%nat in Hl.
      change (live_tokens (set_owners (<[v:=[]]> (owners w1))
                (set_heap (foldr release_token (heap w1) (tokens ++ [base_ref b])) w1))
                (base_ref b))
        with (live_tokens (set_owners (<[v:=[]]> (owners w1)) w1) (base_ref b)).
      lia.
Qed.

End Pinning.

(** ** Views made by slicing *)

Section Views.

Context `{Ext : External}.

(** The bounds computed by [slice.indices] for a step of one lie in the
    buffer. *)
Lemma slice_indices_bounds key len w start stop step :
  slice_indices key len w = (inr (start, stop, step), w) → step = 1 →
  0 ≤ start ≤ len ∧ 0 ≤ stop ≤ len.
Proof.
  unfold slice_indices. munfold.
  destruct (Z.ltb_spec len 0); simpl; [done|].
  destruct (Z.eqb_spec (default 1 (slice_step key)) 0); simpl; [done|].
  intros [= <- <- <-] Hstep. rewrite Hstep. simpl.
  split.
  - destruct (slice_start key) as [s|]; [|lia].
    destruct (Z.ltb_spec s 0); lia.
  - destruct (slice_stop key) as [s|]; [|lia].
    destruct (Z.ltb_spec s 0); lia.
Qed.

(** Slicing a buffer that lies in its base gives a view that lies in it. *)
Lemma getitem_in_bounds w b key v w' st :
  inv w → in_bounds w b → heap w !! base_ref b = Some st → _size st < 2 ^ 64 →
  __getitem__ b key w = (inr v, w') →
  w' = w ∧ in_bounds w v ∧ base_ref v = base_ref b.
Proof.
  intros Hinv Hb Hr Hmax.
  destruct (in_bounds_size _ _ _ Hinv Hb Hr) as (len & Hsize & Ho & Hs & Hle).
  unfold __getitem__. rewrite run_bind. unfold query at 1. rewrite Hsize.
  cbn beta iota. rewrite run_bind.
  destruct (slice_indices key len w) as [[e|[[start stop] step]] w1] eqn:Hidx; [done|].
  assert (w1 = w) as ->.
  { revert Hidx. unfold slice_indices. munfold.
    destruct (len <? 0); simpl; [done|].
    destruct (_ =? 0); simpl; [done|]. by intros [= _ _ _ <-]. }
  cbn beta iota.
  destruct (Z.eqb_spec step 1) as [->|]; simpl; [|done].
  destruct (slice_indices_bounds _ _ _ _ _ _ Hidx eq_refl) as [Hstart Hstop].
  unfold create_view. munfold.
  destruct (Z.ltb_spec (stop - start) 0); simpl; [done|].
  destruct b as [r|vd sz]; simpl in *; intros [= <- <-].
  - split; [done|]. split; [|done]. simpl. exists st.
    rewrite Hr in Hsize. injection Hsize as <-. repeat split; try done; lia.
  - split; [done|]. split; [|done]. simpl. exists st.
    injection Hsize as <-. repeat split; try done; lia.
Qed.

(** A buffer that lies in its base does so after any further calls. *)
Lemma in_bounds_exec w b ops : inv w → in_bounds w b → in_bounds (exec ops w) b.
Proof.
  intros Hinv Hb. pose proof (exec_muts ops w Hinv) as Hm.
  destruct b as [r|vd sz]; simpl in *.
  - destruct Hb as [st Hr].
    destruct (muts_object _ _ _ _ _ Hm Hr) as (st' & Hr' & _). by eexists.
  - destruct Hb as (st & Hr & Hoff & Hsz & Hle).
    destruct (muts_object _ _ _ _ _ Hm Hr) as (st' & Hr' & Hsize & _).
    exists st'. rewrite Hsize. done.
Qed.

End Views.

Lemma dev_read_insert_lt (d : gmap Z Byte.byte) q b p n :
  q < p → dev_read (<[q := b]> d) p n = dev_read d p n.
Proof.
  revert p. induction n as [|n IH]; intros p Hlt; simpl; [done|].
  rewrite lookup_insert_ne by lia. by rewrite IH by lia.
Qed.

Lemma dev_read_write d p bs : dev_read (dev_write d p bs) p (length bs) = bs.
Proof.
  revert p. induction bs as [|b bs IH]; intros p; simpl; [done|].
  rewrite lookup_insert_eq. simpl. by rewrite dev_read_insert_lt, IH by lia.
Qed.


Section RoundTrip.

Context `{Ext : External}.

Lemma init_labels_not_expose limit n l : init_labels limit n l → l ≠ LExpose n.
Proof.
  unfold init_labels, spill_labels, is_spill. intros Hl ->.
  destruct Hl as [[[r [=]] _]|[(r & Hlt & [[=]|[[= ->]|[=]]])|[[=]|[[=]|[[=]|[r [=]]]]]]].
  lia.
Qed.

Lemma init_labels_keep limit n spilled l :
  (is_Some limit → spilled = true) → init_labels limit n l → keeps n spilled l.
Proof.
  unfold init_labels, spill_labels, is_spill. intros Hlim Hl.
  destruct Hl as [[[r ->] Hsome]|[(r & Hlt & [->|[->| ->]])|[->|[->|[->|[r ->]]]]]];
    simpl; auto; lia.
Qed.


End RoundTrip.

(** ** The theorems at work on the example worlds *)

Lemma exposed_never_reset_witness :
  exposed (Base 0)
    (exec (Ext := example_external)
       [OpMoveInplace (Base 0) "cpu"; OpMemoryview (Base 0); OpSerialize (Base 0);
        OpSpillToDeviceLimit]
       world_exposed)
  = Some true.
Proof.
  apply (exposed_never_reset (Ext := example_external)).
  - by eexists _, _, _.
  - vm_compute. reflexivity.
Defined.

Lemma exposed_implies_device_resident_witness :
  is_spilled (View (ViewDesc 0 2) 4) world_exposed = Some false.
Proof.
  apply (exposed_implies_device_resident (Ext := example_external)).
  - by eexists _, _, _.
  - vm_compute. reflexivity.
Defined.

Lemma move_inplace_unspillable_raises_witness :
  ∃ e, Unspillable e
       ∧ move_inplace (Ext := example_external) (Base 0) "cpu" world_exposed
         = (inl e, world_exposed).
Proof.
  destruct (move_inplace_unspillable_raises (Ext := example_external)
              world_exposed 0
              (BaseState 1 true 1 (PtrDesc "gpu" None) 4096 8 (Some 4096)) "cpu")
    as (e & He & Hrun & _).
  - vm_compute. reflexivity.
  - vm_compute. reflexivity.
  - simpl. discriminate.
  - exists e. split; [exact He|exact Hrun].
Defined.

Lemma view_delegates_to_base_witness :
  exposed (View (ViewDesc 0 3) 4) world_exposed = exposed (Base 0) world_exposed
  ∧ is_spilled (View (ViewDesc 0 3) 4) world_exposed = is_spilled (Base 0) world_exposed
  ∧ ∃ w', ptr (Ext := example_external) (View (ViewDesc 0 3) 4) world_exposed
          = (inr (4096 + 3), w').
Proof.
  destruct (view_delegates_to_base (Ext := example_external)
              world_exposed world_exposed (Base 0) 4 3 (View (ViewDesc 0 3) 4))
    as (_ & _ & H).
  - vm_compute. reflexivity.
  - destruct (H world_exposed) as (He & Hs & Hp & _).
    split; [exact He|]. split; [exact Hs|].
    eexists. apply Hp. vm_compute. reflexivity.
Defined.

Lemma slice_of_slice_flattens_witness :
  ∃ v, __getitem__ (Base 0) (Slice (Some 100) (Some 500) None) world_1024
       = (inr v, world_1024)
       ∧ __getitem__ v (Slice (Some 50) (Some 150) None) world_1024
         = (inr (View (ViewDesc 0 150) 100), world_1024).
Proof.
  apply (slice_of_slice_flattens world_1024 0
           (BaseState 1 false 0 (PtrDesc "gpu" None) 4096 1024 (Some 4096))).
  - vm_compute. reflexivity.
  - reflexivity.
Defined.

Lemma memoryview_of_unspillable_copies_witness :
  ∃ bs, memoryview (Ext := example_external) (View (ViewDesc 0 2) 4) world_exposed
        = (inr bs, world_exposed)
        ∧ contents (View (ViewDesc 0 2) 4) world_exposed = Some bs.
Proof.
  destruct (memoryview_of_unspillable_copies (Ext := example_external)
              world_exposed (View (ViewDesc 0 2) 4))
    as (st & sz & bs & _ & _ & Hrun & _ & Hc & _).
  - by eexists _, _, _.
  - eexists. split; [vm_compute; reflexivity|]. simpl. lia.
  - vm_compute. reflexivity.
  - exists bs. split; [exact Hrun|exact Hc].
Defined.

Lemma ptr_raw_pins_without_exposing_witness :
  let w' := after (ptr_raw (Ext := example_external) (Base 0) 0) world_host in
  spillable (Base 0) w' = Some false
  ∧ exposed (Base 0) w' = Some false
  ∧ spillable (Base 0) (exec (Ext := example_external) [OpReleaseOwners 0] w')
    = Some true.
Proof.
  destruct (ptr_raw_pins_without_exposing (Ext := example_external)
              world_host (Base 0) 0 [])
    as (_ & _ & Hs & He & _ & _ & _ & Hfree).
  - by eexists _, _, _.
  - vm_compute. by eexists.
  - vm_compute. reflexivity.
  - vm_compute. reflexivity.
  - split; [exact Hs|]. split; [exact He|]. apply Hfree. vm_compute. reflexivity.
Defined.


(** ** More on moves, slices, pointers, the constructor and its callers *)

Section MoveProperties.

Context `{Ext : External}.

(** X1: [move_inplace] twice to the same target is [move_inplace] once. *)
Theorem move_inplace_idempotent b target w :
  (move_inplace b target;; move_inplace b target) w = move_inplace b target w.
Proof.
  rewrite run_bind. destruct b as [r|vd sz]; [|done].
  destruct (move_inplace (Base r) target w) as [[e|[]] w1] eqn:Hrun; [done|].
  destruct (move_inplace_post r target w) as (st & Hst & Hty).
  { unfold result. by rewrite Hrun. }
  unfold after in Hst. rewrite Hrun in Hst. simpl in Hst.
  rewrite <- Hty. by apply move_inplace_same.
Qed.

Lemma contents_base_ref b w st :
  heap w !! base_ref b = Some st →
  contents b w
  = Some (match b with
          | Base _ => base_contents w st
          | View vd sz => take (Z.to_nat sz) (drop (Z.to_nat (vd_offset vd)) (base_contents w st))
          end).
Proof. destruct b; simpl; by intros ->. Qed.

Lemma size_base_ref b w st w' st' :
  heap w !! base_ref b = Some st → heap w' !! base_ref b = Some st' →
  _size st' = _size st → size b w' = size b w.
Proof. destruct b; simpl; [|done]. intros -> -> Hs. simpl. by rewrite Hs. Qed.

(** A spillable buffer moves to the host with its bytes. *)
Lemma move_inplace_spill_run w b :
  inv w → spillable b w = Some true →
  ∃ w', move_inplace (Base (base_ref b)) "cpu" w = (inr tt, w')
        ∧ is_spilled b w' = Some true
        ∧ contents b w' = contents b w
        ∧ size b w' = size b w
        ∧ exposed b w' = Some false
        ∧ spillable b w' = Some true.
Proof.
  intros Hinv. rewrite spillable_base_ref.
  destruct (heap w !! base_ref b) as [st|] eqn:Hr; simpl; [|done]. intros [= Hsp].
  pose proof (inv_resident _ Hinv _ _ Hr) as Hres. pose proof Hres as [Hsz Hty].
  pose proof Hsp as [He Hc]%spillable_state_true.
  destruct (is_spilled_state st) eqn:Hs.
  - (* on the host already *)
    exists w. split.
    + assert (Hcpu : ptype (_ptr_desc st) = "cpu").
      { destruct Hty as [Hg|[? _]]; [|done].
        apply is_spilled_state_false in Hg. congruence. }
      pose proof (move_inplace_same _ _ w Hr) as Hsame.
      by rewrite Hcpu in Hsame.
    + rewrite is_spilled_base_ref, exposed_base_ref, spillable_base_ref, Hr. simpl.
      by rewrite Hs, He, Hsp.
  - (* device to host *)
    pose proof (move_inplace_spill _ _ w Hr Hs Hsp Hsz) as Hrun.
    eexists. split; [exact Hrun|].
    set (st' := with_residency st _ 0 (_size st) None).
    set (w' := set_heap _ _).
    assert (Hr' : heap w' !! base_ref b = Some st').
    { subst w'. simpl. apply list_lookup_insert_eq. by eapply lookup_lt_Some. }
    assert (Hbc : base_contents w' st' = base_contents w st).
    { unfold base_contents. by rewrite Hs. }
    rewrite is_spilled_base_ref, exposed_base_ref, spillable_base_ref, Hr'. simpl.
    rewrite (contents_base_ref _ _ _ Hr), (contents_base_ref _ _ _ Hr'), Hbc.
    rewrite (size_base_ref b w st w' st') by done.
    repeat split; try done; by f_equal.
Qed.

(** X2: a move of a spillable buffer between device and host keeps the bytes
    and the size of the buffer and of every view of it. *)
Theorem move_inplace_keeps_contents w b target :
  reachable w → spillable b w = Some true →
  target = "cpu" ∨ target = "gpu" →
  ∃ w', move_inplace (Base (base_ref b)) target w = (inr tt, w')
        ∧ is_spilled b w' = Some (bool_decide (target = "cpu"))
        ∧ contents b w' = contents b w
        ∧ size b w' = size b w
        ∧ exposed b w' = Some false
        ∧ spillable b w' = Some true.
Proof.
  intros Hinv%reachable_inv Hspb [-> | ->].
  { rewrite bool_decide_true by done. by apply move_inplace_spill_run. }
  rewrite bool_decide_false by done. revert Hspb. rewrite spillable_base_ref.
  destruct (heap w !! base_ref b) as [st|] eqn:Hr; simpl; [|done]. intros [= Hsp].
  pose proof (inv_resident _ Hinv _ _ Hr) as Hres. pose proof Hres as [Hsz Hty].
  pose proof Hsp as [He Hc]%spillable_state_true.
  destruct (is_spilled_state st) eqn:Hs.
  - (* host to device *)
    destruct (move_inplace_unspill _ _ w Hr Hres Hs) as (mv & Hmv & Hlen & Hrun).
    eexists. split; [exact Hrun|].
    set (p := rmm_alloc (device w) (length mv)).
    set (st' := with_residency st (PtrDesc "gpu" None) p (_size st) (Some p)).
    set (w' := set_heap _ _).
    assert (Hr' : heap w' !! base_ref b = Some st').
    { subst w'. simpl. apply list_lookup_insert_eq. by eapply lookup_lt_Some. }
    assert (Hbc : base_contents w' st' = base_contents w st).
    { unfold base_contents. rewrite Hs, Hmv. simpl.
      rewrite <- Hlen, Nat2Z.id. apply dev_read_write. }
    rewrite is_spilled_base_ref, exposed_base_ref, spillable_base_ref, Hr'. simpl.
    rewrite (contents_base_ref _ _ _ Hr), (contents_base_ref _ _ _ Hr'), Hbc.
    rewrite (size_base_ref b w st w' st') by done.
    repeat split; try done; by f_equal.
  - (* on the device already *)
    exists w. split.
    + pose proof (move_inplace_same _ _ w Hr) as Hsame.
      by rewrite (proj1 (is_spilled_state_false st) Hs) in Hsame.
    + rewrite is_spilled_base_ref, exposed_base_ref, spillable_base_ref, Hr. simpl.
      by rewrite Hs, He, Hsp.
Qed.

(** X3: with a target other than ["cpu"] and ["gpu"], [move_inplace] on a
    base buffer of a reachable world raises and changes nothing; the error
    for an unspillable buffer comes first. *)
Theorem move_inplace_unknown_target w r st target :
  reachable w → heap w !! r = Some st → target ≠ "cpu" → target ≠ "gpu" →
  move_inplace (Base r) target w
  = (inl (ValueError (if spillable_state st then msg_unknown_target
                      else msg_unspillable)), w).
Proof.
  intros Hinv%reachable_inv Hr Hc Hg.
  destruct (inv_resident _ Hinv _ _ Hr) as [_ Hty].
  assert (Hne : ptype (_ptr_desc st) ≠ target).
  { destruct Hty as [->|[-> _]]; congruence. }
  unfold move_inplace. munfold. rewrite Hr. simpl.
  apply String.eqb_neq in Hne, Hc, Hg. rewrite Hne, Hc, Hg, !andb_false_r.
  by destruct (spillable_state st).
Qed.

End MoveProperties.

Section Slicing.

Context `{Ext : External}.

Lemma clamp_bounds i len : 0 ≤ len → 0 ≤ clamp i len ≤ len.
Proof. intros Hlen. unfold clamp. destruct (Z.ltb_spec i 0); lia. Qed.

Lemma slice_lo_bounds key len : 0 ≤ len → 0 ≤ slice_lo key len ≤ len.
Proof.
  intros Hlen. unfold slice_lo. destruct (slice_start key); [|lia].
  by apply clamp_bounds.
Qed.

Lemma slice_hi_bounds key len : 0 ≤ len → 0 ≤ slice_hi key len ≤ len.
Proof.
  intros Hlen. unfold slice_hi. destruct (slice_stop key); [|lia].
  by apply clamp_bounds.
Qed.

(** [__getitem__] in closed form. *)
Lemma getitem_run w b key len :
  size b w = Some len → 0 ≤ len →
  let step := default 1 (slice_step key) in
  let lo := slice_lo key len in
  let hi := slice_hi key len in
  __getitem__ b key w
  = if step =? 0 then (inl (ValueError msg_slice_zero), w)
    else if negb (step =? 1) then (inl (ValueError msg_slice_step), w)
    else if hi - lo <? 0 then (inl (ValueError msg_negative_size), w)
    else (inr (View (ViewDesc (base_ref b) (view_offset b + lo)) (hi - lo)), w).
Proof.
  intros Hsize Hlen step lo hi. subst step lo hi.
  unfold __getitem__, slice_indices, create_view. munfold. rewrite Hsize. cbn beta iota.
  destruct (Z.ltb_spec len 0); [lia|]. cbn beta iota.
  destruct (Z.eqb_spec (default 1 (slice_step key)) 0) as [|Hz]; [done|]. cbn beta iota.
  destruct (Z.eqb_spec (default 1 (slice_step key)) 1) as [Hone|Hne]; simpl; [|done].
  rewrite Hone. simpl.
  unfold slice_lo, slice_hi, clamp.
  destruct (_ <? 0); [done|]. by destruct b.
Qed.

(** X4: [__getitem__] raises exactly for a step other than one and for a
    slice that stops before it starts, for which it gives no empty view; it
    leaves the state as it is. *)
Theorem getitem_raises_iff w b key len :
  size b w = Some len → 0 ≤ len →
  (∃ msg, __getitem__ b key w = (inl (ValueError msg), w))
  ↔ default 1 (slice_step key) ≠ 1 ∨ slice_hi key len < slice_lo key len.
Proof.
  intros Hsize Hlen. rewrite (getitem_run _ _ _ _ Hsize Hlen). cbn zeta.
  destruct (Z.eqb_spec (default 1 (slice_step key)) 0) as [Hz|Hz].
  { split; [intros _; left; lia|eauto]. }
  destruct (Z.eqb_spec (default 1 (slice_step key)) 1) as [Hone|Hne]; simpl.
  2: { split; [by left|eauto]. }
  destruct (Z.ltb_spec (slice_hi key len - slice_lo key len) 0).
  - split; [intros _; right; lia|eauto].
  - split; [by intros [? [=]]|intros [?|?]; [done|lia]].
Qed.

Lemma take_drop_take {A} (l : list A) (o s a n : nat) :
  (a + n ≤ s)%nat →
  take n (drop a (take s (drop o l))) = take n (drop (o + a) l).
Proof.
  intros Hle. rewrite <- drop_drop. generalize (drop o l). clear l. intros l.
  rewrite (take_drop_commute l n a), (take_drop_commute (take s l) n a).
  by rewrite take_take, Nat.min_l by lia.
Qed.

(** X5: the bytes of a slice of a buffer are the Python slice of the bytes of
    the buffer; the slice has the base of the buffer. *)
Theorem getitem_contents w b key v w' c :
  reachable w → in_bounds w b → contents b w = Some c →
  __getitem__ b key w = (inr v, w') →
  w' = w ∧ base_ref v = base_ref b
  ∧ contents v w = Some (bytes_slice c key)
  ∧ size v w = Some (Z.of_nat (length (bytes_slice c key))).
Proof.
  intros Hinv%reachable_inv Hb Hc.
  assert (∃ st, heap w !! base_ref b = Some st) as [st Hr].
  { destruct b as [r|vd sz]; simpl in *; [done|]. destruct Hb as (st & ? & _). eauto. }
  destruct (in_bounds_size _ _ _ Hinv Hb Hr) as (len & Hsize & Ho & Hs & Hle).
  rewrite (getitem_run _ _ _ _ Hsize Hs). cbn zeta.
  pose proof (slice_lo_bounds key len Hs) as Hlo.
  pose proof (slice_hi_bounds key len Hs) as Hhi.
  destruct (_ =? 0); [done|]. destruct (negb _); [done|].
  destruct (Z.ltb_spec (slice_hi key len - slice_lo key len) 0) as [|Hord]; [done|].
  intros [= <- <-]. split; [done|]. split; [done|].
  assert (Hclen : Z.of_nat (length c) = len).
  { rewrite (contents_base_ref _ _ _ Hr) in Hc. injection Hc as <-.
    assert (Hbl : Z.of_nat (length (base_contents w st)) = _size st).
    { unfold base_contents.
      destruct (inv_resident _ Hinv _ _ Hr) as [Hsz [Hg|(Hcpu & _ & mv & Hmv & Hl)]].
      - apply is_spilled_state_false in Hg. rewrite Hg, length_dev_read. lia.
      - assert (is_spilled_state st = true) as ->.
        { unfold is_spilled_state. by rewrite Hcpu. }
        by rewrite Hmv. }
    destruct b as [r|vd sz]; simpl in *.
    - rewrite Hr in Hsize. by injection Hsize as <-.
    - injection Hsize as <-. rewrite length_take, length_drop. lia. }
  unfold bytes_slice. rewrite Hclen.
  split.
  - simpl. rewrite Hr. simpl. f_equal.
    rewrite (contents_base_ref _ _ _ Hr) in Hc. injection Hc as <-.
    destruct b as [r|vd sz]; simpl in *.
    + by rewrite Z.add_0_l.
    + injection Hsize as <-.
      rewrite take_drop_take by lia. f_equal. f_equal. lia.
  - simpl. f_equal. rewrite length_take, length_drop. lia.
Qed.

(** X6: slicing a slice is slicing once with the offsets added. *)
Theorem getitem_getitem w b len s1 e1 s2 e2 :
  size b w = Some len →
  0 ≤ s1 ≤ e1 → e1 ≤ len → 0 ≤ s2 ≤ e2 → e2 ≤ e1 - s1 →
  ∃ v, __getitem__ b (Slice (Some s1) (Some e1) None) w = (inr v, w)
       ∧ __getitem__ v (Slice (Some s2) (Some e2) None) w
         = __getitem__ b (Slice (Some (s1 + s2)) (Some (s1 + e2)) None) w
       ∧ __getitem__ v (Slice (Some s2) (Some e2) None) w
         = (inr (View (ViewDesc (base_ref b) (view_offset b + (s1 + s2))) (e2 - s2)), w).
Proof.
  intros Hsize H1 Hl H2 Hl2.
  assert (Hc : ∀ i n, 0 ≤ i ≤ n → clamp i n = i).
  { intros i n Hi. unfold clamp. destruct (Z.ltb_spec i 0); lia. }
  eexists. split; [|split].
  - rewrite (getitem_run _ _ _ _ Hsize) by lia. cbn zeta. simpl.
    unfold slice_lo, slice_hi. simpl. rewrite !Hc by lia.
    destruct (Z.ltb_spec (e1 - s1) 0); [lia|]. reflexivity.
  - rewrite (getitem_run w (View _ _) _ (e1 - s1)) by (done || lia).
    rewrite (getitem_run _ _ _ _ Hsize) by lia. cbn zeta. simpl.
    unfold slice_lo, slice_hi. simpl. rewrite !Hc by lia.
    destruct (Z.ltb_spec (e2 - s2) 0); [lia|].
    destruct (Z.ltb_spec (s1 + e2 - (s1 + s2)) 0); [lia|].
    do 3 f_equal; [f_equal|]; lia.
  - rewrite (getitem_run w (View _ _) _ (e1 - s1)) by (done || lia).
    cbn zeta. simpl. unfold slice_lo, slice_hi. simpl. rewrite !Hc by lia.
    destruct (Z.ltb_spec (e2 - s2) 0); [lia|].
    do 3 f_equal. f_equal. lia.
Qed.

(** X7: [is_overlapping] is false for a spilled buffer; for a buffer on the
    device and ranges that are not empty it tells whether the ranges share
    an address; an empty range counts as overlapping when its address lies
    strictly inside the buffer. *)
Theorem is_overlapping_iff w r st p sz :
  heap w !! r = Some st →
  (is_spilled_state st = true → is_overlapping r p sz w = Some false)
  ∧ (is_spilled_state st = false → 0 < sz → 0 < _size st →
     (is_overlapping r p sz w = Some true
      ↔ ∃ x, p ≤ x < p + sz ∧ _ptr st ≤ x < _ptr st + _size st))
  ∧ (is_spilled_state st = false → sz = 0 →
     (is_overlapping r p sz w = Some true ↔ _ptr st < p < _ptr st + _size st)).
Proof.
  intros Hr. unfold is_overlapping. rewrite Hr. simpl.
  split; [by intros ->|]. split.
  - intros -> Hsz Hst. simpl.
    destruct (Z.gtb_spec (p + sz) (_ptr st)), (Z.gtb_spec (_ptr st + _size st) p);
      simpl; split; try done; try (intros (x & ? & ?); lia).
    intros _. exists (Z.max p (_ptr st)). lia.
  - intros -> ->. simpl.
    destruct (Z.gtb_spec (p + 0) (_ptr st)), (Z.gtb_spec (_ptr st + _size st) p);
      simpl; split; try done; try lia.
Qed.

(** X8: the size of a buffer never changes. *)
Theorem size_never_changes w ops b s :
  reachable w → size b w = Some s → size b (exec ops w) = Some s.
Proof.
  intros Hinv%reachable_inv. destruct b as [r|vd sz]; simpl; [|done].
  destruct (heap w !! r) as [st|] eqn:Hr; simpl; [|done]. intros [= <-].
  destruct (muts_object _ _ _ _ _ (exec_muts ops w Hinv) Hr) as (st' & Hr' & Hsz & _).
  rewrite Hr'. simpl. by rewrite Hsz.
Qed.

End Slicing.

(** ** Buffers that cannot be spilled stay where they are *)

Lemma mstep_unspillable_stays l w w' r st :
  mstep l w w' → inv w → heap w !! r = Some st → spillable_state st = false →
  ∃ st', heap w' !! r = Some st' ∧ _ptr st' = _ptr st
         ∧ _ptr_desc st' = _ptr_desc st ∧ _size st' = _size st.
Proof.
  intros Hs Hinv Hr Hsp.
  assert (Hlt : (r < length (heap w))%nat) by (by eapply lookup_lt_Some).
  pose proof (inv_resident _ Hinv _ _ Hr) as [_ Hres].
  destruct Hs as
    [r0 st0 mv w w' H0 Hs0 Hsa Hlen ->|r0 st0 p w w' H0 Hs0 ->|r0 st0 w w' H0 Hg ->
    |r0 st0 t w w' H0 ->|r0 v st0 tokens w w' H0 Hg Hv ->|st0 w w' Hok ->
    |r0 w w' H0 ->|d w w' ->|c w w' ->|v tokens w w' Hv ->|w w' ->]; simpl;
    try (by exists st);
    try (destruct (decide (r0 = r)) as [->|Hne];
         [rewrite list_lookup_insert_eq by done; simplify_eq
         |rewrite list_lookup_insert_ne by done; by exists st]).
  - congruence.
  - destruct Hres as [Hg|(_ & ? & _)]; [|congruence].
    apply is_spilled_state_false in Hg. congruence.
  - by eexists.
  - by eexists.
  - by eexists.
  - exists st. split; [by apply lookup_app_l_Some|done].
  - rewrite foldr_release_lookup, Hr. simpl. by eexists.
Qed.

Lemma spillable_state_exposed st : _exposed st = true → spillable_state st = false.
Proof. unfold spillable_state. by intros ->. Qed.

Lemma muts_exposed_stays A w w' r st :
  muts A w w' → inv w → heap w !! r = Some st → _exposed st = true →
  ∃ st', heap w' !! r = Some st' ∧ _exposed st' = true ∧ _ptr st' = _ptr st
         ∧ _ptr_desc st' = _ptr_desc st.
Proof.
  intros Hm. revert st. induction Hm as [|l w1 w2 w3 Hl Hs _ IH]; intros st Hinv Hr He.
  { by exists st. }
  destruct (mstep_unspillable_stays _ _ _ _ _ Hs Hinv Hr (spillable_state_exposed _ He))
    as (st2 & H2 & Hp2 & Hd2 & _).
  destruct (mstep_object _ _ _ _ _ Hs Hr) as (st2' & H2' & _ & Hmono & _).
  simplify_eq.
  destruct (IH st2 (mstep_inv _ _ _ Hs Hinv) H2 (Hmono He)) as (st3 & H3 & He3 & Hp3 & Hd3).
  exists st3. repeat split; congruence.
Qed.

Lemma muts_pinned_stays A w w' r st v tokens :
  muts A w w' → inv w → (∀ l, A l → l ≠ LRelease v) →
  owners w !! v = Some tokens → r ∈ tokens → heap w !! r = Some st →
  ∃ st', heap w' !! r = Some st' ∧ _ptr st' = _ptr st ∧ _ptr_desc st' = _ptr_desc st.
Proof.
  intros Hm. revert st tokens.
  induction Hm as [|l w1 w2 w3 Hl Hs _ IH]; intros st tokens Hinv HA Hv Hin Hr.
  { by exists st. }
  pose proof (live_token_blocks_spilling _ _ _ _ _ Hinv Hv Hin Hr) as Hsp.
  destruct (mstep_unspillable_stays _ _ _ _ _ Hs Hinv Hr Hsp) as (st2 & H2 & Hp2 & Hd2 & _).
  destruct (mstep_owners _ _ _ _ _ Hs (HA _ Hl) Hv) as (more & Hv2).
  destruct (IH st2 (tokens ++ more) (mstep_inv _ _ _ Hs Hinv) HA Hv2) as (st3 & H3 & Hp3 & Hd3);
    [apply elem_of_app; by left|done|].
  exists st3. repeat split; congruence.
Qed.

Section PointerStability.

Context `{Ext : External}.

(** The run of [ptr] on a base buffer. *)
Lemma ptr_base_run r st w :
  inv w → heap w !! r = Some st →
  ∃ st' w', ptr_base r w = (inr (_ptr st'), w')
            ∧ heap w' !! r = Some st' ∧ _exposed st' = true
            ∧ ptype (_ptr_desc st') = "gpu" ∧ inv w'.
Proof.
  intros Hinv Hr.
  pose proof (spill_limit_muts w Hinv) as Hm1.
  destruct (muts_object _ _ _ _ _ Hm1 Hr) as (st1 & H1 & _).
  pose proof (muts_inv _ _ _ Hm1 Hinv) as Hinv1.
  pose proof (spill_ok w Hinv) as Hres1.
  set (w1 := after spill_to_device_limit w) in *.
  destruct (move_inplace_gpu_run _ _ _ Hinv1 H1)
    as (st2 & w2 & Hmv & H2 & Hg & _ & _ & _ & _).
  assert (Hlt : (r < length (heap w2))%nat) by (by eapply lookup_lt_Some).
  assert (Hrun : ptr_base r w
                 = (inr (_ptr st2),
                    set_heap (<[r := with_last_accessed (with_exposed st2 true) (clock w2)]>
                                (heap w2)) (set_clock (S (clock w2)) w2))).
  { unfold ptr_base. rewrite run_bind, (run_eq spill_to_device_limit w), Hres1.
    fold w1. cbn beta iota. rewrite run_bind, Hmv. cbn beta iota.
    munfold. rewrite H2. simpl. rewrite list_lookup_insert_eq by done. simpl.
    by rewrite list_insert_insert_eq. }
  pose proof (muts_inv _ _ _ (ptr_base_muts r w Hinv) Hinv) as Hinv'.
  unfold after in Hinv'. rewrite Hrun in Hinv'.
  exists (with_last_accessed (with_exposed st2 true) (clock w2)). eexists.
  split; [exact Hrun|]. split; [|split; [|split]]; [| | |exact Hinv'].
  - simpl. by rewrite list_lookup_insert_eq.
  - done.
  - done.
Qed.

(** X9: [ptr] succeeds on every buffer of a reachable world and returns the
    address of the base plus the offset; from then on, whatever is called,
    the buffer is exposed, not spillable, on the device, and at the same
    address. *)
Theorem ptr_exposes_for_good w b :
  reachable w → is_Some (heap w !! base_ref b) →
  ∃ p w', ptr b w = (inr p, w')
          ∧ address b w' = Some (p - view_offset b)
          ∧ ∀ ops, exposed b (exec ops w') = Some true
                   ∧ spillable b (exec ops w') = Some false
                   ∧ is_spilled b (exec ops w') = Some false
                   ∧ address b (exec ops w') = address b w'.
Proof.
  intros Hinv%reachable_inv [st Hr].
  destruct (ptr_base_run _ _ _ Hinv Hr) as (st' & w' & Hrun & Hr' & He & Hg & Hinv').
  assert (Hp : ptr b w = (inr (_ptr st' + view_offset b), w')).
  { destruct b as [r|vd sz]; simpl in *.
    - by rewrite Z.add_0_r.
    - rewrite run_bind, Hrun. done. }
  eexists _, _. split; [exact Hp|].
  unfold address. rewrite Hr'. simpl. split; [f_equal; lia|].
  intros ops.
  destruct (muts_exposed_stays _ _ _ _ _ (exec_muts ops w' Hinv') Hinv' Hr' He)
    as (st2 & H2 & He2 & Hp2 & Hd2).
  rewrite exposed_base_ref, spillable_base_ref, is_spilled_base_ref, H2. simpl.
  rewrite He2, Hp2, (spillable_state_exposed _ He2).
  repeat split. f_equal. apply is_spilled_state_false. by rewrite Hd2.
Qed.

(** X10: while the owner vector that [ptr_raw] filled is not released, the
    buffer stays on the device at the address [ptr_raw] returned. *)
Theorem ptr_raw_address_stays w b v tokens :
  reachable w → in_bounds w b → owners w !! v = Some tokens →
  ∃ p w', ptr_raw b v w = (inr p, w')
          ∧ (∀ a, address b w' = Some a → p = (a + view_offset b) `mod` 2 ^ 64)
          ∧ is_Some (address b w')
          ∧ ∀ ops, (∀ o, o ∈ ops → o ≠ OpReleaseOwners v) →
                   is_spilled b (exec ops w') = Some false
                   ∧ address b (exec ops w') = address b w'.
Proof.
  intros Hinv%reachable_inv Hb Hv.
  assert (∃ st, heap w !! base_ref b = Some st) as [st Hr].
  { destruct b as [r|vd sz]; simpl in *; [done|]. destruct Hb as (st & ? & _). eauto. }
  destruct (move_inplace_gpu_run _ _ _ Hinv Hr)
    as (st2 & w2 & Hmv & H2 & Hg & He & Hc & Ho & Hck).
  assert (Hlt : (base_ref b < length (heap w2))%nat) by (by eapply lookup_lt_Some).
  assert (Hlv : (v < length (owners w))%nat) by (by eapply lookup_lt_Some).
  pose proof (muts_inv _ _ _ (ptr_raw_muts b v w Hinv) Hinv) as Hinv'.
  set (st' := with_expose_counter (with_last_accessed st2 (clock w2))
                (S (_expose_counter st2))).
  assert (∃ w', ptr_raw b v w = (inr ((_ptr st' + view_offset b) `mod` 2 ^ 64), w')
                ∧ heap w' !! base_ref b = Some st'
                ∧ owners w' !! v = Some (tokens ++ [base_ref b]))
    as (w' & Hrun & Hr' & Hv').
  { eexists. split.
    - unfold ptr_raw. rewrite run_bind, (get_base_in_bounds _ _ Hb). cbn beta iota.
      rewrite run_bind, Hmv. unfold push_back. munfold. simpl.
      rewrite H2. simpl. rewrite Ho, Hv. simpl.
      rewrite list_lookup_insert_eq by done. simpl. reflexivity.
    - simpl. rewrite list_insert_insert_eq.
      rewrite !list_lookup_insert_eq by (done || by rewrite Ho). done. }
  unfold after in Hinv'. rewrite Hrun in Hinv'. simpl in Hinv'.
  eexists _, _. split; [exact Hrun|].
  unfold address. rewrite Hr'. simpl.
  split; [by intros a [= <-]|]. split; [by eexists|].
  intros ops Hops.
  assert (Hnr : ∀ l, (∃ o, o ∈ ops ∧ op_labels o l) → l ≠ LRelease v).
  { intros l (o & Hin & Hl) ->. simpl in Hl. by apply (Hops o Hin). }
  destruct (muts_pinned_stays _ _ _ (base_ref b) st' v _ (exec_muts ops w' Hinv') Hinv' Hnr Hv')
    as (st3 & H3 & Hp3 & Hd3); [apply elem_of_app; right; by left|done|].
  rewrite is_spilled_base_ref, H3. simpl. rewrite Hp3. split; [|done].
  f_equal. apply is_spilled_state_false. by rewrite Hd3.
Qed.


End PointerStability.

Lemma mstep_manager l w w' :
  mstep l w w' → (∀ r, l ≠ LRegister r) → manager w' = manager w.
Proof. destruct 1; intros Hl; subst; try done. by destruct (Hl r). Qed.

Lemma muts_manager A w w' :
  muts A w w' → (∀ l r, A l → l ≠ LRegister r) → manager w' = manager w.
Proof.
  intros Hm HA. induction Hm as [|l w1 w2 w3 Hl Hs _ IH]; [done|].
  rewrite IH. eapply mstep_manager; eauto.
Qed.

Section ConstructorCases.

Context `{Ext : External}.

(** X12: the interface description is made without touching the world: no
    move, no exposure; its data field has two items, the second is [False],
    an index other than 0 and 1 is an [IndexError], and reading the first
    is reading [ptr]. *)
Theorem cuda_array_interface_is_lazy w b :
  after (__cuda_array_interface__ b) w = w
  ∧ (∀ sz, size b w = Some sz →
       ∃ cai, __cuda_array_interface__ b w = (inr cai, w)
              ∧ cai_shape cai = sz ∧ _buf (cai_data cai) = b
              ∧ dpt_len (cai_data cai) = 2
              ∧ dpt_getitem (cai_data cai) 1 w = (inr (inr (ItemBool false)), w)
              ∧ (∀ i, i ≠ 0 → i ≠ 1 →
                   dpt_getitem (cai_data cai) i w = (inr (inl IndexError), w))
              ∧ (∀ p w', ptr b w = (inr p, w') →
                   dpt_getitem (cai_data cai) 0 w = (inr (inr (ItemInt p)), w'))
              ∧ (∀ e w', ptr b w = (inl e, w') →
                   dpt_getitem (cai_data cai) 0 w = (inl e, w'))).
Proof.
  split.
  { unfold __cuda_array_interface__. munfold. by destruct (size b w). }
  intros sz Hsz. eexists. split.
  { unfold __cuda_array_interface__. munfold. by rewrite Hsz. }
  simpl. repeat split; try done.
  - intros i H0 H1. unfold dpt_getitem.
    destruct (Z.eqb_spec i 0); [done|]. destruct (Z.eqb_spec i 1); done.
  - intros p w' Hp. unfold dpt_getitem. simpl. by rewrite run_bind, Hp.
  - intros e w' Hp. unfold dpt_getitem. simpl. by rewrite run_bind, Hp.
Qed.


Lemma find_ext_in {A} (f g : A → bool) (l : list A) :
  (∀ x, x ∈ l → f x = g x) → List.find f l = List.find g l.
Proof.
  induction l as [|x l IH]; intros H; [done|]. simpl.
  rewrite (H x) by (by left). rewrite IH; [done|].
  intros y Hy. apply H. by right.
Qed.

Lemma lookup_address_range_new w w' st p sz :
  inv w → heap w' = heap w ++ [st] → manager w' = manager w →
  lookup_address_range p sz w' = lookup_address_range p sz w.
Proof.
  intros Hinv Hh Hm. unfold lookup_address_range. rewrite Hm.
  apply find_ext_in. intros r Hr. unfold is_overlapping.
  rewrite Hh, lookup_app_l; [done|]. by apply (inv_registered _ Hinv).
Qed.

(** What [init_manager] leaves in the manager and in the overlapped
    buffer. *)
Lemma init_manager_effect st self w :
  inv w → (self < length (heap w))%nat →
  let w' := after (init_manager st self) w in
  match lookup_address_range (_ptr st) (_size st) w with
  | Some b0 => exposed (Base b0) w' = Some true ∧ manager w' = manager w
  | None =>
    base_buffers (manager w')
    = if _exposed st || bool_decide (self ∈ base_buffers (manager w))
      then base_buffers (manager w)
      else base_buffers (manager w) ++ [self]
  end.
Proof.
  intros Hinv Hself w'. subst w'. unfold init_manager.
  erewrite (after_bind (query _)) by (munfold; done). rewrite after_query.
  destruct (lookup_address_range _ _ w) as [b0|] eqn:Hb.
  - apply lookup_address_range_Some in Hb as [_ Hov].
    apply is_overlapping_true in Hov as (stb & Hstb & _).
    destruct (ptr_base_run _ _ _ Hinv Hstb) as (st' & w1 & Hrun & Hr' & He & _ & Hinv1).
    pose proof (ptr_base_muts b0 w Hinv) as Hmp. unfold after in Hmp. rewrite Hrun in Hmp.
    simpl in Hmp.
    assert (Hstep : after (ptr (Base b0);; mret tt) w = w1
                    ∧ result (ptr (Base b0);; mret tt) w = inr tt).
    { unfold after, result. rewrite run_bind. simpl. by rewrite Hrun. }
    destruct Hstep as [Haft Hres].
    rewrite (after_bind _ _ w tt) by done. rewrite Haft.
    rewrite (after_bind _ _ w1 tt) by (by apply spill_ok).
    change (after (mret (Base self)) ?x) with x.
    pose proof (spill_limit_muts w1 Hinv1) as Hms.
    destruct (muts_object _ _ _ _ _ Hms Hr') as (st2 & H2 & _ & Hmono & _).
    split.
    + simpl. rewrite H2. simpl. by rewrite Hmono.
    + rewrite (muts_manager _ _ _ Hms) by (intros l r [[r' ->] _]; done).
      apply (muts_manager _ _ _ Hmp). intros l r Hl ->.
      unfold ptr_labels, spill_labels, is_spill in Hl.
      destruct Hl as [[[r' [=]] _]|[[=]|[[=]|[[=]|[[=]|[=]]]]]].
  - set (step := if negb (_exposed st) then manager_add self else mret tt).
    assert (Hstep : result step w = inr tt) by (subst step; by destruct (negb _)).
    rewrite (after_bind _ _ w tt) by done.
    assert (Hinv1 : inv (after step w)).
    { subst step. destruct (negb _); [|done].
      unfold manager_add. munfold. simpl. case_bool_decide; [done|].
      eapply mstep_inv; [|done]. by eapply ms_register. }
    rewrite (after_bind _ _ _ tt) by (by apply spill_ok).
    change (after (mret (Base self)) ?x) with x.
    rewrite (muts_manager _ _ _ (spill_limit_muts _ Hinv1))
      by (intros l r [[r' ->] _]; done).
    subst step. destruct (_exposed st); simpl; [done|].
    unfold manager_add. munfold. simpl. by case_bool_decide.
Qed.

(** X14: without the exposed flag, a contiguous host buffer is wrapped as it
    is: the new buffer is on the host, holds the given bytes, and can be
    spilled and unspilled. *)
Theorem init_wraps_host_buffer w content :
  reachable w →
  let n := length (heap w) in
  ∃ w', __init__ (SrcHost content true) false w = (inr (Base n), w')
        ∧ is_spilled (Base n) w' = Some true
        ∧ contents (Base n) w' = Some content
        ∧ size (Base n) w' = Some (Z.of_nat (length content))
        ∧ exposed (Base n) w' = Some false
        ∧ spillable (Base n) w' = Some true.
Proof.
  intros Hinv%reachable_inv n. subst n.
  set (stn := BaseState 1 false (clock w) (PtrDesc "cpu" (Some content)) 0
                (Z.of_nat (length content)) None).
  assert (Hst : init_state (SrcHost content true) false (clock w)
                  (set_clock (S (clock w)) w)
                = (inr stn, set_clock (S (clock w)) w)) by done.
  destruct (init_run _ _ _ _ _ Hinv Hst) as (Hrun & Hinv3 & Hn & Hlim & _ & Hm).
  assert (Hk : ∀ l, init_labels (device_memory_limit (manager w)) (length (heap w)) l →
                    keeps (length (heap w)) (is_spilled_state stn) l).
  { intros l. by apply init_labels_keep. }
  pose proof (muts_frame _ _ _ _ _ Hm Hk Hn) as Hn'.
  eexists. split; [exact Hrun|].
  unfold is_spilled, contents, size, exposed, spillable. rewrite Hn'. done.
Qed.

(** X15: a device source is taken as it is: the new buffer has the size of
    the source and the exposed flag that was given; with the flag set it is
    on the device at the address of the source, whatever the device limit. *)
Theorem init_takes_device_buffer w data p n e :
  reachable w → data = SrcDeviceBuffer p n ∨ data = SrcCudaArray p n →
  let m := length (heap w) in
  ∃ w', __init__ data e w = (inr (Base m), w')
        ∧ exposed (Base m) w' = Some e
        ∧ size (Base m) w' = Some (Z.of_nat n)
        ∧ (e = true →
           is_spilled (Base m) w' = Some false ∧ address (Base m) w' = Some p).
Proof.
  intros Hinv%reachable_inv Hd m. subst m.
  set (st := BaseState 1 e (clock w) (PtrDesc "gpu" None) p (Z.of_nat n) (Some p)).
  assert (Hst : init_state data e (clock w) (set_clock (S (clock w)) w)
                = (inr st, set_clock (S (clock w)) w)) by (by destruct Hd as [-> | ->]).
  destruct (init_run _ _ _ _ _ Hinv Hst) as (Hrun & Hinv3 & Hn & Hlim & _ & Hm).
  eexists. split; [exact Hrun|].
  destruct (muts_object _ _ _ _ _ Hm Hn) as (st' & Hn' & Hsz & _ & Hsame).
  unfold exposed, size, is_spilled, address. cbn [base_ref]. rewrite Hn'. simpl.
  rewrite Hsame, Hsz by (intros l; apply init_labels_not_expose).
  split; [done|]. split; [done|]. intros ->.
  destruct (muts_exposed_stays _ _ _ _ _ Hm Hinv3 Hn eq_refl) as (st2 & H2 & _ & Hp2 & Hd2).
  simplify_eq. rewrite Hp2. split; [|done].
  f_equal. apply is_spilled_state_false. by rewrite Hd2.
Qed.

(** X16: when the manager knows a buffer that overlaps the range of the new
    one, the constructor exposes that buffer and registers nothing;
    otherwise it registers the new buffer unless the exposed flag is set. *)
Theorem init_exposes_overlapped_buffer w data p n e :
  reachable w → data = SrcDeviceBuffer p n ∨ data = SrcCudaArray p n →
  let m := length (heap w) in
  ∃ w', __init__ data e w = (inr (Base m), w')
        ∧ match lookup_address_range p (Z.of_nat n) w with
          | Some b0 =>
            exposed (Base b0) w' = Some true
            ∧ base_buffers (manager w') = base_buffers (manager w)
          | None =>
            base_buffers (manager w')
            = if e then base_buffers (manager w) else base_buffers (manager w) ++ [m]
          end.
Proof.
  intros Hinv%reachable_inv Hd m. subst m.
  set (st := BaseState 1 e (clock w) (PtrDesc "gpu" None) p (Z.of_nat n) (Some p)).
  assert (Hst : init_state data e (clock w) (set_clock (S (clock w)) w)
                = (inr st, set_clock (S (clock w)) w)) by (by destruct Hd as [-> | ->]).
  destruct (init_run _ _ _ _ _ Hinv Hst) as (Hrun & Hinv3 & Hn & Hlim & _ & Hm).
  eexists. split; [exact Hrun|].
  set (w3 := set_heap _ _) in *.
  pose proof (init_manager_effect st (length (heap w)) w3 Hinv3) as Heff.
  rewrite (lookup_address_range_new w w3 st) in Heff by done.
  simpl in Heff. specialize (Heff (lookup_lt_Some _ _ _ Hn)).
  destruct (lookup_address_range p (Z.of_nat n) w) as [b0|].
  - destruct Heff as [He ->]. done.
  - rewrite Heff. change (manager w3) with (manager w).
    rewrite bool_decide_false; [by rewrite orb_false_r|].
    intros Hin%(inv_registered _ Hinv). lia.
Qed.








End ConstructorCases.


Section ColumnData.

Context `{Ext : External}.

Lemma Column_data_run w c b len :
  Column._base_data c = Some b → Column._data c = None →
  size b w = Some len →
  0 ≤ Column._offset c * Column.itemsize c →
  0 ≤ Column._size c * Column.itemsize c →
  Column._offset c * Column.itemsize c + Column._size c * Column.itemsize c ≤ len →
  Column.data c w
  = (inr (Some (column_view c b len), Column.with_data c (Some (column_view c b len))), w).
Proof.
  intros Hb Hd Hsize Hs Hn Hle. unfold Column.data, column_view. rewrite Hb, Hd.
  set (start := Column._offset c * Column.itemsize c) in *.
  set (n := Column._size c * Column.itemsize c) in *.
  assert (Hget : __getitem__ b (Slice (Some start) (Some (start + n)) None) w
                 = (inr (View (ViewDesc (base_ref b) (view_offset b + start)) n), w)).
  { rewrite (getitem_run _ _ _ _ Hsize) by lia. cbn zeta. simpl.
    unfold slice_lo, slice_hi, clamp. simpl.
    destruct (Z.ltb_spec start 0); [lia|]. destruct (Z.ltb_spec (start + n) 0); [lia|].
    rewrite !Z.min_l by lia.
    destruct (Z.ltb_spec (start + n - start) 0); [lia|].
    do 3 f_equal. lia. }
  destruct (Z.eqb_spec start 0) as [H0|H0]; simpl andb.
  - rewrite !run_bind. unfold query. rewrite Hsize.
    unfold mret, M_ret, ret. cbn beta iota.
    destruct (Z.eqb_spec (start + n) len) as [He|Hne];
      destruct (Z.eqb_spec n len) as [He'|Hne']; try lia; cbn beta iota.
    + done.
    + by rewrite run_bind, Hget.
  - rewrite !run_bind. unfold mret, M_ret, ret. cbn beta iota.
    by rewrite ?run_bind, Hget.
Qed.

Lemma Column_data_cached w c b d :
  Column._base_data c = Some b → Column._data c = Some d →
  Column.data c w = (inr (Some d, c), w).
Proof. intros Hb Hd. unfold Column.data. by rewrite Hb, Hd. Qed.

(** X17: the data pointer of a column is the pointer of its base buffer plus
    the offset of the column in bytes, and reading either pointer leaves the
    same state. *)
Theorem Column_data_ptr_offset w c b len :
  reachable w → in_bounds w b →
  Column._base_data c = Some b → Column._data c = None →
  size b w = Some len →
  0 ≤ Column._offset c * Column.itemsize c →
  0 ≤ Column._size c * Column.itemsize c →
  Column._offset c * Column.itemsize c + Column._size c * Column.itemsize c ≤ len →
  ∃ p w' c',
    Column.base_data_ptr c w = (inr p, w')
    ∧ Column.data_ptr c w
      = (inr (inr (p + Column._offset c * Column.itemsize c, c')), w')
    ∧ Column._base_data c' = Some b
    ∧ exposed b w' = Some true.
Proof.
  intros Hinv%reachable_inv Hin Hb Hd Hsize Hs Hn Hle.
  assert (∃ st, heap w !! base_ref b = Some st) as [st Hr].
  { destruct b as [r|vd sz]; simpl in *; [done|]. destruct Hin as (st & ? & _). eauto. }
  destruct (ptr_base_run _ _ _ Hinv Hr) as (st' & w' & Hrun & Hr' & He & _).
  exists (_ptr st' + view_offset b), w', (Column.with_data c (Some (column_view c b len))).
  assert (Hp : ptr b w = (inr (_ptr st' + view_offset b), w')).
  { destruct b as [r|vd sz]; simpl in *.
    - by rewrite Z.add_0_r.
    - rewrite run_bind, Hrun. done. }
  split; [by unfold Column.base_data_ptr; rewrite Hb|].
  split; [|split; [done|by rewrite exposed_base_ref, Hr'; simpl; rewrite He]].
  unfold Column.data_ptr.
  rewrite run_bind, (Column_data_run _ _ _ _ Hb Hd Hsize Hs Hn Hle). cbn beta iota.
  rewrite run_bind, (Column_data_cached _ _ b (column_view c b len)) by done.
  cbn beta iota. rewrite run_bind. unfold column_view.
  destruct (_ && _) eqn:Hw.
  - apply andb_true_iff in Hw as [H0%Z.eqb_eq _]. rewrite Hp, H0, Z.add_0_r. done.
  - simpl. rewrite run_bind, Hrun. cbn beta iota.
    unfold mret, M_ret, ret. cbn beta iota.
    do 4 f_equal. lia.
Qed.

(** X18: the data buffer of a column holds the bytes of its base buffer from
    the offset of the column on, as many as the column has; it is the base
    buffer itself when the column spans it, it is kept for the next read,
    and reading it leaves the state as it is. *)
Theorem Column_data_contents w c b len bs :
  reachable w → in_bounds w b →
  Column._base_data c = Some b → Column._data c = None →
  size b w = Some len → contents b w = Some bs →
  0 ≤ Column._offset c * Column.itemsize c →
  0 ≤ Column._size c * Column.itemsize c →
  Column._offset c * Column.itemsize c + Column._size c * Column.itemsize c ≤ len →
  ∃ d c',
    Column.data c w = (inr (Some d, c'), w)
    ∧ contents d w
      = Some (take (Z.to_nat (Column._size c * Column.itemsize c))
                (drop (Z.to_nat (Column._offset c * Column.itemsize c)) bs))
    ∧ size d w = Some (Column._size c * Column.itemsize c)
    ∧ (Column._offset c * Column.itemsize c = 0
       → Column._size c * Column.itemsize c = len → d = b)
    ∧ Column.data c' w = (inr (Some d, c'), w).
Proof.
  intros Hinv%reachable_inv Hin Hb Hd Hsize Hc Hs Hn Hle.
  assert (∃ st, heap w !! base_ref b = Some st) as [st Hr].
  { destruct b as [r|vd sz]; simpl in *; [done|]. destruct Hin as (st & ? & _). eauto. }
  eexists _, _. split; [by apply (Column_data_run _ _ b len)|].
  set (start := Column._offset c * Column.itemsize c) in *.
  set (n := Column._size c * Column.itemsize c) in *.
  assert (Hbl : Z.of_nat (length (base_contents w st)) = _size st).
  { unfold base_contents.
    destruct (inv_resident _ Hinv _ _ Hr) as [Hsz [Hg|(Hcpu & _ & mv & Hmv & Hl)]].
    - apply is_spilled_state_false in Hg. rewrite Hg, length_dev_read. lia.
    - assert (is_spilled_state st = true) as ->.
      { unfold is_spilled_state. by rewrite Hcpu. }
      by rewrite Hmv. }
  destruct (in_bounds_size _ _ _ Hinv Hin Hr) as (len' & Hsize' & Ho & Hl0 & Hle').
  assert (len' = len) as -> by congruence.
  rewrite (contents_base_ref _ _ _ Hr) in Hc. injection Hc as <-.
  assert (Hbs : Z.of_nat (length (match b with
                          | Base _ => base_contents w st
                          | View vd sz => take (Z.to_nat sz)
                              (drop (Z.to_nat (vd_offset vd)) (base_contents w st))
                          end)) = len).
  { destruct b as [r|vd sz]; simpl in *.
    - rewrite Hr in Hsize. injection Hsize as <-. done.
    - injection Hsize as <-. rewrite length_take, length_drop. lia. }
  unfold column_view. fold start n.
  destruct (Z.eqb_spec start 0) as [H0|H0]; simpl andb;
    [destruct (Z.eqb_spec n len) as [Hw|Hw]|].
  - rewrite (contents_base_ref _ _ _ Hr), Hsize, H0, Hw.
    change (Z.to_nat 0) with 0%nat. rewrite drop_0, take_ge by lia. repeat split; try done.
    by apply (Column_data_cached _ _ b).
  - split; [|split; [done|split; [done|by apply (Column_data_cached _ _ b)]]].
    simpl. rewrite Hr. simpl. f_equal.
    destruct b as [r|vd sz]; simpl in *; [by rewrite Z.add_0_l|].
    injection Hsize as <-. rewrite take_drop_take by lia. f_equal. f_equal. lia.
  - split; [|split; [done|split; [done|by apply (Column_data_cached _ _ b)]]].
    simpl. rewrite Hr. simpl. f_equal.
    destruct b as [r|vd sz]; simpl in *; [by rewrite Z.add_0_l|].
    injection Hsize as <-. rewrite take_drop_take by lia. f_equal. f_equal. lia.
Qed.

End ColumnData.

Lemma int32_id z : -2 ^ 31 ≤ z < 2 ^ 31 → int32 z = z.
Proof. intros Hz. unfold int32. rewrite Z.mod_small; lia. Qed.

Lemma fills_S n chunk : fills (S n) chunk = chunk ++ fills n chunk.
Proof. done. Qed.

Lemma length_fills n chunk : length (fills n chunk) = (n * length chunk)%nat.
Proof.
  induction n as [|n IH]; [done|].
  rewrite fills_S, length_app, IH. lia.
Qed.

(** The loops store their chunk as often as the counter is short of its
    bound, with any fuel that is no less. *)
Lemma fill_up_run fuel length width chunk output :
  -2 ^ 31 ≤ length → width < 2 ^ 31 →
  (Z.to_nat (width - length) ≤ fuel)%nat →
  fill_up fuel length width chunk output
  = output ++ fills (Z.to_nat (width - length)) chunk.
Proof.
  revert length output. induction fuel as [|fuel IH]; intros len output Hl Hw Hf.
  - replace (Z.to_nat (width - len)) with 0%nat by lia. simpl. by rewrite app_nil_r.
  - simpl. destruct (Z.ltb_spec len width).
    + rewrite int32_id by lia. rewrite IH by lia.
      replace (Z.to_nat (width - len)) with (S (Z.to_nat (width - (len + 1)))) by lia.
      by rewrite fills_S, app_assoc.
    + replace (Z.to_nat (width - len)) with 0%nat by lia. simpl. by rewrite app_nil_r.
Qed.

Lemma fill_down_run fuel pad chunk output :
  pad < 2 ^ 31 → (Z.to_nat pad ≤ fuel)%nat →
  fill_down fuel pad chunk output = output ++ fills (Z.to_nat pad) chunk.
Proof.
  revert pad output. induction fuel as [|fuel IH]; intros pad output Hp Hf.
  - replace (Z.to_nat pad) with 0%nat by lia. simpl. by rewrite app_nil_r.
  - simpl. destruct (Z.gtb_spec pad 0).
    + rewrite int32_id by lia. rewrite IH by lia.
      replace (Z.to_nat pad) with (S (Z.to_nat (pad - 1))) by lia.
      by rewrite fills_S, app_assoc.
    + replace (Z.to_nat pad) with 0%nat by lia. simpl. by rewrite app_nil_r.
Qed.

Lemma land_1_odd z : negb (Z.land z 1 =? 0) = Z.odd z.
Proof.
  change 1 with (Z.ones 1) at 1. rewrite Z.land_ones by lia.
  change (2 ^ 1) with 2. rewrite Zmod_odd. by destruct (Z.odd z).
Qed.

Section PaddingProofs.

Context `{Lib : StringLib}.

(** What [pad_impl] stores. *)
Lemma pad_impl_run side d_str width fill_char :
  0 ≤ string_length d_str → width < 2 ^ 31 →
  -2 ^ 31 ≤ width - string_length d_str →
  let pad := Z.max 0 (width - string_length d_str) in
  let fill := from_char_utf8 fill_char in
  pad_impl side d_str width fill_char
  = match side with
    | LEFT => fills (Z.to_nat pad) fill ++ d_str
    | RIGHT => d_str ++ fills (Z.to_nat pad) fill
    | BOTH =>
      fills (Z.to_nat (pad - right_fills width pad)) fill ++ d_str
      ++ fills (Z.to_nat (right_fills width pad)) fill
    end.
Proof.
  intros Hl Hw Hd pad fill. subst fill. unfold pad_impl, copy_string.
  assert (Hn : Z.to_nat (width - string_length d_str) = Z.to_nat pad) by (subst pad; lia).
  destruct side.
  - rewrite fill_up_run by lia. by rewrite Hn.
  - rewrite fill_up_run by lia. by rewrite Hn.
  - rewrite land_1_odd. rewrite (int32_id (width - _)) by lia.
    set (p := width - string_length d_str) in *.
    assert (Hq : -2 ^ 31 ≤ p ÷ 2 < 2 ^ 31 ∧ -2 ^ 31 ≤ p - p ÷ 2 < 2 ^ 31
                 ∧ (0 ≤ p → p ÷ 2 = p / 2) ∧ (p < 0 → p ÷ 2 ≤ 0 ∧ p - p ÷ 2 ≤ 0)).
    { destruct (Z.le_gt_cases 0 p) as [H0|H0].
      - rewrite Z.quot_div_nonneg by lia.
        pose proof (Z.div_mod p 2 ltac:(lia)). pose proof (Z.mod_pos_bound p 2 ltac:(lia)).
        lia.
      - pose proof (Z.quot_rem p 2 ltac:(lia)).
        pose proof (Z.rem_bound_pos_neg p 2 ltac:(lia) ltac:(lia)). lia. }
    destruct Hq as (Hq1 & Hq2 & Hq3 & Hq4).
    set (rp := if Z.odd width then p ÷ 2 else int32 (p - p ÷ 2)).
    assert (Hrp : rp = if Z.odd width then p ÷ 2 else p - p ÷ 2).
    { subst rp. destruct (Z.odd width); [done|]. by rewrite int32_id. }
    assert (Hlp : int32 (p - rp) = p - rp).
    { apply int32_id. rewrite Hrp. destruct (Z.odd width); lia. }
    rewrite Hlp, !fill_down_run by (rewrite ?Hrp; destruct (Z.odd width); lia).
    simpl. rewrite <- app_assoc.
    assert (Z.to_nat rp = Z.to_nat (right_fills width pad)
            ∧ Z.to_nat (p - rp) = Z.to_nat (pad - right_fills width pad)) as [-> ->]; [|done].
    unfold right_fills. rewrite Hrp. subst pad.
    destruct (Z.le_gt_cases 0 p) as [H0|H0].
    + rewrite Z.max_r, Hq3 by lia. by destruct (Z.odd width).
    + rewrite Z.max_l by lia. change (0 / 2) with 0.
      destruct (Z.odd width); lia.
Qed.

(** X19: [pad_impl] stores as many bytes as [compute_padded_size] counts for
    the fill character, on every side. *)
Theorem pad_impl_size side d_str width fill_char :
  0 ≤ string_length d_str → width < 2 ^ 31 →
  -2 ^ 31 ≤ width - string_length d_str →
  size_bytes d_str
  + size_bytes (from_char_utf8 fill_char) * Z.max 0 (width - string_length d_str)
  < 2 ^ 31 →
  size_bytes (pad_impl side d_str width fill_char)
  = compute_padded_size d_str width (size_bytes (from_char_utf8 fill_char)).
Proof.
  intros Hl Hw Hd Hfit.
  rewrite pad_impl_run by lia. cbn zeta.
  set (fill := from_char_utf8 fill_char) in *.
  set (p := width - string_length d_str) in *.
  assert (Hrf : 0 ≤ right_fills width (Z.max 0 p) ≤ Z.max 0 p).
  { unfold right_fills.
    pose proof (Z.div_mod (Z.max 0 p) 2 ltac:(lia)).
    pose proof (Z.mod_pos_bound (Z.max 0 p) 2 ltac:(lia)).
    destruct (Z.odd width); lia. }
  assert (Hlen : size_bytes (match side with
                  | LEFT => fills (Z.to_nat (Z.max 0 p)) fill ++ d_str
                  | RIGHT => d_str ++ fills (Z.to_nat (Z.max 0 p)) fill
                  | BOTH => fills (Z.to_nat (Z.max 0 p - right_fills width (Z.max 0 p))) fill
                            ++ d_str ++ fills (Z.to_nat (right_fills width (Z.max 0 p))) fill
                  end) = size_bytes d_str + size_bytes fill * Z.max 0 p).
  { unfold size_bytes. destruct side; rewrite !length_app, !length_fills; nia. }
  rewrite Hlen. unfold compute_padded_size. fold p.
  unfold size_bytes in *.
  destruct (Z.gtb_spec width (string_length d_str)).
  - rewrite Z.max_r in * by lia.
    rewrite (int32_id p) by lia.
    rewrite (int32_id (_ * p)) by nia. rewrite int32_id by nia. done.
  - rewrite Z.max_l by lia. lia.
Qed.

(** X20: [pad_impl] never truncates: for a width that is no more than the
    length of the string it stores the string as it is, on every side. *)
Theorem pad_impl_never_truncates side d_str width fill_char :
  -2 ^ 31 ≤ width - string_length d_str ≤ 0 →
  pad_impl side d_str width fill_char = d_str.
Proof.
  intros Hd. unfold pad_impl, copy_string.
  replace (Z.to_nat (width - string_length d_str)) with 0%nat by lia.
  destruct side; simpl; [by rewrite ?app_nil_r..|].
  rewrite (int32_id (width - _)) by lia.
  set (p := width - string_length d_str) in *.
  pose proof (Z.quot_rem p 2 ltac:(lia)).
  pose proof (Z.rem_bound_pos_neg p 2 ltac:(lia) ltac:(lia)).
  set (rp := if negb _ then _ else _).
  assert (Hrp : -2 ^ 31 ≤ rp ≤ 0 ∧ -2 ^ 31 ≤ p - rp ≤ 0).
  { subst rp. destruct (negb _); [lia|]. rewrite int32_id; lia. }
  rewrite (int32_id (p - rp)) by lia.
  replace (Z.to_nat (p - rp)) with 0%nat by lia.
  replace (Z.to_nat rp) with 0%nat by lia. done.
Qed.

(** X21: padding on both sides puts the string between two runs of the fill
    character that together make up the width; the runs differ by at most
    one, and the longer one is on the left for an odd width and on the right
    for an even one. *)
Theorem pad_impl_both_split d_str width fill_char :
  0 ≤ string_length d_str → string_length d_str ≤ width < 2 ^ 31 →
  ∃ l r : nat,
    pad_impl BOTH d_str width fill_char
    = fills l (from_char_utf8 fill_char) ++ d_str ++ fills r (from_char_utf8 fill_char)
    ∧ Z.of_nat (l + r) = width - string_length d_str
    ∧ (l = r ∨ if Z.odd width then l = S r else r = S l).
Proof.
  intros Hl Hw. rewrite pad_impl_run by lia. cbn zeta.
  set (p := Z.max 0 (width - string_length d_str)).
  assert (Hp : p = width - string_length d_str) by lia.
  eexists _, _. split; [done|].
  pose proof (Z.div_mod p 2 ltac:(lia)). pose proof (Z.mod_pos_bound p 2 ltac:(lia)).
  unfold right_fills. destruct (Z.odd width); split; try lia.
Qed.

(** X22: [zfill_impl] stores a leading sign first, then the zeros, then the
    rest of the string; the number of zeros is the width less the length of
    the whole string, the sign included. *)
Theorem zfill_impl_sign_first d_str width :
  0 ≤ string_length d_str → width < 2 ^ 31 →
  let zeros := fills (Z.to_nat (width - string_length d_str)) [Byte.x30] in
  zfill_impl d_str width
  = match d_str with
    | c :: rest => if is_sign c then c :: zeros ++ rest else zeros ++ d_str
    | [] => zeros
    end.
Proof.
  intros Hl Hw zeros. subst zeros. unfold zfill_impl, copy_string.
  destruct d_str as [|c rest].
  - rewrite fill_up_run by lia. by rewrite app_nil_r.
  - destruct (is_sign c); by rewrite fill_up_run by lia.
Qed.

(** X23: [zfill_impl] stores as many bytes as [compute_padded_size] counts
    for a fill character of one byte. *)
Theorem zfill_impl_size d_str width :
  0 ≤ string_length d_str → width < 2 ^ 31 →
  size_bytes d_str + Z.max 0 (width - string_length d_str) < 2 ^ 31 →
  size_bytes (zfill_impl d_str width) = compute_padded_size d_str width 1.
Proof.
  intros Hl Hw Hfit. unfold zfill_impl, copy_string, compute_padded_size.
  assert (Hlen : ∀ out rest : bytes,
            (length out + length rest = length d_str)%nat →
            size_bytes (fill_up (Z.to_nat (width - string_length d_str))
                          (string_length d_str) width [Byte.x30] out ++ rest)
            = size_bytes d_str + Z.max 0 (width - string_length d_str)).
  { intros out rest Ho. rewrite fill_up_run by lia. unfold size_bytes.
    rewrite !length_app, length_fills. simpl. lia. }
  assert (Hsz : size_bytes d_str + Z.max 0 (width - string_length d_str)
                = if width >? string_length d_str
                  then int32 (size_bytes d_str
                              + int32 (1 * int32 (width - string_length d_str)))
                  else size_bytes d_str).
  { unfold size_bytes in *. destruct (Z.gtb_spec width (string_length d_str)).
    - rewrite (int32_id (width - _)) by lia. rewrite Z.mul_1_l.
      rewrite (int32_id (width - _)) by lia. rewrite int32_id by lia. lia.
    - lia. }
  rewrite <- Hsz.
  destruct d_str as [|c rest]; [by apply Hlen|].
  destruct (is_sign c); apply Hlen; simpl; lia.
Qed.

End PaddingProofs.

(** ** These theorems at work on examples *)


Lemma move_inplace_keeps_contents_witness :
  ∃ w', move_inplace (Ext := example_external) (Base 0) "gpu" world_host = (inr tt, w')
        ∧ is_spilled (Base 0) w' = Some false
        ∧ contents (Base 0) w' = Some bytes4.
Proof.
  destruct (move_inplace_keeps_contents (Ext := example_external)
              world_host (Base 0) "gpu") as (w' & Hrun & Hs & Hc & _).
  - by eexists _, _, _.
  - vm_compute. reflexivity.
  - right. reflexivity.
  - exists w'. split; [exact Hrun|]. split; [exact Hs|].
    rewrite Hc. vm_compute. reflexivity.
Defined.

Lemma move_inplace_unknown_target_witness :
  move_inplace (Ext := example_external) (Base 0) "disk" world_host
  = (inl (ValueError msg_unknown_target), world_host).
Proof.
  apply (move_inplace_unknown_target (Ext := example_external) world_host 0
           (BaseState 1 false 0 (PtrDesc "cpu" (Some bytes4)) 0 4 None) "disk").
  - by eexists _, _, _.
  - vm_compute. reflexivity.
  - discriminate.
  - discriminate.
Defined.

Lemma getitem_raises_iff_witness :
  ∃ msg, __getitem__ (Base 0) (Slice (Some 5) (Some 2) None) world_1024
         = (inl (ValueError msg), world_1024).
Proof.
  apply (getitem_raises_iff world_1024 (Base 0) (Slice (Some 5) (Some 2) None) 1024).
  - vm_compute. reflexivity.
  - lia.
  - right. vm_compute. reflexivity.
Defined.

Lemma getitem_contents_witness :
  contents (View (ViewDesc 0 1) 2) world_host = Some [Byte.x02; Byte.x03].
Proof.
  destruct (getitem_contents (Ext := example_external) world_host (Base 0) (Slice (Some 1) (Some 3) None)
              (View (ViewDesc 0 1) 2) world_host bytes4) as (_ & _ & Hc & _).
  - by eexists _, _, _.
  - vm_compute. eexists. reflexivity.
  - vm_compute. reflexivity.
  - vm_compute. reflexivity.
  - exact Hc.
Defined.

Lemma getitem_getitem_witness :
  ∃ v, __getitem__ (Base 0) (Slice (Some 100) (Some 500) None) world_1024
       = (inr v, world_1024)
       ∧ __getitem__ v (Slice (Some 50) (Some 150) None) world_1024
         = __getitem__ (Base 0) (Slice (Some 150) (Some 250) None) world_1024.
Proof.
  destruct (getitem_getitem world_1024 (Base 0) 1024 100 500 50 150)
    as (v & H1 & H2 & _).
  - vm_compute. reflexivity.
  - lia.
  - lia.
  - lia.
  - lia.
  - exists v. split; [exact H1|exact H2].
Defined.

Lemma is_overlapping_iff_witness :
  is_overlapping 0 4100 10 world_exposed = Some true.
Proof.
  destruct (is_overlapping_iff world_exposed 0
              (BaseState 1 true 1 (PtrDesc "gpu" None) 4096 8 (Some 4096)) 4100 10)
    as (_ & H & _).
  - vm_compute. reflexivity.
  - apply H; [reflexivity|lia|simpl; lia|]. exists 4100. simpl. lia.
Defined.

Lemma size_never_changes_witness :
  size (Base 0)
    (exec (Ext := example_external) [OpMoveInplace (Base 0) "cpu"; OpPtr (Base 0)]
       world_1024)
  = Some 1024.
Proof.
  apply (size_never_changes (Ext := example_external)).
  - by eexists _, _, _.
  - vm_compute. reflexivity.
Defined.

Lemma ptr_exposes_for_good_witness :
  ∃ p w', ptr (Ext := example_external) (Base 0) world_host = (inr p, w')
          ∧ exposed (Base 0)
              (exec (Ext := example_external) [OpMoveInplace (Base 0) "cpu"] w')
            = Some true.
Proof.
  destruct (ptr_exposes_for_good (Ext := example_external) world_host (Base 0))
    as (p & w' & Hrun & _ & H).
  - by eexists _, _, _.
  - vm_compute. eexists. reflexivity.
  - exists p, w'. split; [exact Hrun|]. apply H.
Defined.

Lemma ptr_raw_address_stays_witness :
  ∃ p w', ptr_raw (Ext := example_external) (Base 0) 0 world_host = (inr p, w')
          ∧ is_spilled (Base 0)
              (exec (Ext := example_external) [OpSpillToDeviceLimit] w')
            = Some false.
Proof.
  destruct (ptr_raw_address_stays (Ext := example_external) world_host (Base 0) 0 [])
    as (p & w' & Hrun & _ & _ & H).
  - by eexists _, _, _.
  - vm_compute. eexists. reflexivity.
  - vm_compute. reflexivity.
  - exists p, w'. split; [exact Hrun|]. apply H.
    intros o Ho%list_elem_of_singleton. subst o. discriminate.
Defined.


Lemma cuda_array_interface_is_lazy_witness :
  ∃ cai, __cuda_array_interface__ (Base 0) world_1024 = (inr cai, world_1024)
         ∧ cai_shape cai = 1024.
Proof.
  destruct (cuda_array_interface_is_lazy (Ext := example_external)
              world_1024 (Base 0)) as [_ H].
  destruct (H 1024) as (cai & Hrun & Hshape & _).
  - vm_compute. reflexivity.
  - exists cai. split; [exact Hrun|exact Hshape].
Defined.


Lemma init_wraps_host_buffer_witness :
  ∃ w', __init__ (Ext := example_external) (SrcHost bytes4 true) false world_exposed
        = (inr (Base 1), w')
        ∧ contents (Base 1) w' = Some bytes4.
Proof.
  destruct (init_wraps_host_buffer (Ext := example_external) world_exposed bytes4)
    as (w' & Hrun & _ & Hc & _).
  - by eexists _, _, _.
  - exists w'. split; [exact Hrun|exact Hc].
Defined.

Lemma init_takes_device_buffer_witness :
  ∃ w', __init__ (Ext := example_external) (SrcDeviceBuffer 8192 16) true world_1024
        = (inr (Base 1), w')
        ∧ exposed (Base 1) w' = Some true
        ∧ address (Base 1) w' = Some 8192.
Proof.
  destruct (init_takes_device_buffer (Ext := example_external)
              world_1024 (SrcDeviceBuffer 8192 16) 8192 16 true)
    as (w' & Hrun & He & _ & H).
  - by eexists _, _, _.
  - left. reflexivity.
  - exists w'. split; [exact Hrun|]. split; [exact He|]. apply H. reflexivity.
Defined.

Lemma init_exposes_overlapped_buffer_witness :
  ∃ w', __init__ (Ext := example_external) (SrcDeviceBuffer 4200 16) false world_1024
        = (inr (Base 1), w')
        ∧ exposed (Base 0) w' = Some true
        ∧ base_buffers (manager w') = base_buffers (manager world_1024).
Proof.
  destruct (init_exposes_overlapped_buffer (Ext := example_external)
              world_1024 (SrcDeviceBuffer 4200 16) 4200 16 false)
    as (w' & Hrun & H).
  - by eexists _, _, _.
  - left. reflexivity.
  - exists w'. split; [exact Hrun|].
    assert (Hl : lookup_address_range 4200 (Z.of_nat 16) world_1024 = Some 0%nat).
    { vm_compute. reflexivity. }
    rewrite Hl in H. exact H.
Defined.

Lemma Column_data_ptr_offset_witness :
  ∃ p w' c',
    Column.base_data_ptr (Ext := example_external)
      (Column.Make 100 10 4 (Some (Base 0)) None) world_1024 = (inr p, w')
    ∧ Column.data_ptr (Ext := example_external)
        (Column.Make 100 10 4 (Some (Base 0)) None) world_1024
      = (inr (inr (p + 40, c')), w').
Proof.
  destruct (Column_data_ptr_offset (Ext := example_external) world_1024
              (Column.Make 100 10 4 (Some (Base 0)) None) (Base 0) 1024)
    as (p & w' & c' & Hb & Hd & _).
  - by eexists _, _, _.
  - vm_compute. eexists. reflexivity.
  - reflexivity.
  - reflexivity.
  - vm_compute. reflexivity.
  - simpl. lia.
  - simpl. lia.
  - simpl. lia.
  - exists p, w', c'. split; [exact Hb|exact Hd].
Defined.

Lemma Column_data_contents_witness :
  ∃ d c',
    Column.data (Column.Make 2 1 1 (Some (Base 0)) None) world_host
    = (inr (Some d, c'), world_host)
    ∧ contents d world_host = Some [Byte.x02; Byte.x03].
Proof.
  destruct (Column_data_contents (Ext := example_external) world_host
              (Column.Make 2 1 1 (Some (Base 0)) None) (Base 0) 4 bytes4)
    as (d & c' & Hrun & Hc & _).
  - by eexists _, _, _.
  - vm_compute. eexists. reflexivity.
  - reflexivity.
  - reflexivity.
  - vm_compute. reflexivity.
  - vm_compute. reflexivity.
  - simpl. lia.
  - simpl. lia.
  - simpl. lia.
  - exists d, c'. split; [exact Hrun|exact Hc].
Defined.

Lemma pad_impl_size_witness :
  size_bytes (pad_impl (Lib := ascii_strings) BOTH str_fox 7 43)
  = compute_padded_size (Lib := ascii_strings) str_fox 7 1.
Proof.
  apply (pad_impl_size (Lib := ascii_strings) BOTH str_fox 7 43).
  - by vm_compute.
  - lia.
  - by vm_compute.
  - by vm_compute.
Defined.

Lemma pad_impl_never_truncates_witness :
  pad_impl (Lib := ascii_strings) BOTH str_fox 2 43 = str_fox.
Proof.
  apply (pad_impl_never_truncates (Lib := ascii_strings)). by vm_compute.
Defined.

Lemma pad_impl_both_split_witness :
  ∃ l r : nat,
    pad_impl (Lib := ascii_strings) BOTH str_foxx 7 43
    = fills l [Byte.x2b] ++ str_foxx ++ fills r [Byte.x2b]
    ∧ Z.of_nat (l + r) = 3
    ∧ (l = r ∨ l = S r).
Proof.
  apply (pad_impl_both_split (Lib := ascii_strings) str_foxx 7 43).
  - by vm_compute.
  - by vm_compute.
Defined.

Lemma zfill_impl_sign_first_witness :
  zfill_impl (Lib := ascii_strings) str_minus_42 6
  = [Byte.x2d; Byte.x30; Byte.x30; Byte.x30; Byte.x34; Byte.x32].
Proof.
  apply (zfill_impl_sign_first (Lib := ascii_strings) str_minus_42 6).
  - by vm_compute.
  - lia.
Defined.

Lemma zfill_impl_size_witness :
  size_bytes (zfill_impl (Lib := ascii_strings) str_minus_42 6)
  = compute_padded_size (Lib := ascii_strings) str_minus_42 6 1.
Proof.
  apply (zfill_impl_size (Lib := ascii_strings) str_minus_42 6).
  - by vm_compute.
  - lia.
  - by vm_compute.
Defined.
